(** * The Sweet display encoder of MVisor (sweet/display_encoder.cc)

    A shallow embedding of [SweetDisplayEncoder]: the screen bitmap and the
    scatter/gather blit of [RenderPartial], the slice queue filled by
    [CreateEncodeSlice], and one iteration of the encoder thread
    ([EncodeProcess], [ConvertSlices], [DrawSlices], [Encode]).

    Conventions.
    - C++ [uint] is a [Z] reduced modulo 2^32 ([uint]); [int] is the signed
      reading of the same 32 bits ([int]).
    - Pointers into [screen_bitmap_] are byte offsets from its first byte;
      an offset may leave the buffer, and [memcpy] reports that.
    - libyuv and x264 are foreign: a conversion is recorded by the name of the
      routine and the arguments it was called with, and the value returned by
      [x264_encoder_encode] is an input of the iteration.
    - The calls the outside world can see ([notify_all], the codec submission,
      the output callback) are logged in program order in [effects]. *)

From Stdlib Require Import ZArith Lia Bool Strings.Byte.
From stdpp Require Import base numbers option list.

Local Open Scope Z_scope.

(** ** Machine integers *)

Definition uint (z : Z) : Z := z mod 2 ^ 32.

Definition int (z : Z) : Z := (z + 2 ^ 31) mod 2 ^ 32 - 2 ^ 31.

Definition size_t (z : Z) : Z := z mod 2 ^ 64.

Definition int64_t (z : Z) : Z := (z + 2 ^ 63) mod 2 ^ 64 - 2 ^ 63.

(** ** How a call ends *)

Inductive undefined : Type :=
  | WriteOutside (dst : Z) (n : Z)
  | ReadOutside (src : Z) (n : Z)
  | DivideByZero.

(** [Abort] is a failed [MV_ASSERT] or an [MV_PANIC]; [Undefined] is what C++
    leaves undefined and no check of the program catches. *)
Inductive outcome (A : Type) : Type :=
  | Done (a : A)
  | Abort
  | Undefined (u : undefined).

Arguments Done {A} a.
Arguments Abort {A}.
Arguments Undefined {A} u.

#[global] Instance outcome_ret : MRet outcome := fun A a => Done a.

#[global] Instance outcome_bind : MBind outcome := fun A B f m =>
  match m with
  | Done a => f a
  | Abort => Abort
  | Undefined u => Undefined u
  end.

Definition MV_ASSERT (b : bool) : outcome unit :=
  if b then Done tt else Abort.

(** ** Memory *)

Definition len {A} (l : list A) : Z := Z.of_nat (length l).

(** [memcpy buf dst from src n]: the [n] bytes at offset [src] of [from] land
    at offset [dst] of [buf]. [n] is the [size_t] the call receives. *)
Definition memcpy (buf : list byte) (dst : Z) (from : list byte) (src : Z) (n : Z)
  : outcome (list byte) :=
  if negb ((0 <=? dst) && (dst + n <=? len buf)) then Undefined (WriteOutside dst n)
  else if negb ((0 <=? src) && (src + n <=? len from)) then Undefined (ReadOutside src n)
  else Done (take (Z.to_nat dst) buf
             ++ take (Z.to_nat n) (drop (Z.to_nat src) from)
             ++ drop (Z.to_nat (dst + n)) buf).

(** ** Data model *)

(** Modelled from the spec: [DisplayPartialBitmap] is declared in a header
    that is not part of the sources at hand. Its fields are those
    [RenderPartial] and [Render] read; the numeric ones are [uint], the type
    [CreateEncodeSlice] receives them at. [vector] holds, per [iovec], the
    [iov_len] bytes at [iov_base]. *)
Record DisplayPartialBitmap : Type := {
  vector : list (list byte);
  stride : Z;
  width : Z;
  height : Z;
  x : Z;
  y : Z;
  flip : bool
}.

(** What a slice's picture holds: nothing yet after [x264_picture_alloc]
    (taken to succeed; its failure ends in [MV_PANIC]), or the I420 image a
    libyuv routine made of the [width] x [height] pixels read from [src]
    with row pitch [src_stride]. *)
Inductive yuv_picture : Type :=
  | x264_picture_alloc (i_width i_height : Z)
  | ARGBToI420 (src : list byte) (src_stride : Z) (width height : Z)
  | RGB24ToI420 (src : list byte) (src_stride : Z) (width height : Z).

(** [slice_x] .. [slice_height] are the [x], [y], [width] and [height] of
    the C++ struct. *)
Record EncodeSlice : Type := {
  slice_x : Z;
  slice_y : Z;
  slice_width : Z;
  slice_height : Z;
  yuv : yuv_picture
}.

Inductive frame_type : Type := X264_TYPE_AUTO | X264_TYPE_KEYFRAME.

(** [input_yuv_]: the planes are represented by the slices stitched into
    them so far, oldest first. *)
Record x264_picture_t : Type := {
  i_type : frame_type;
  i_pts : Z;
  img : list EncodeSlice
}.

Definition OutputCallback : Type := nat.

Inductive effect : Type :=
  | notify_all
  | x264_encoder_encode (pic_type : frame_type) (pts : Z)
  | output_callback (cb : OutputCallback) (p_payload : list byte) (size : Z).

Record SweetDisplayEncoder : Type := {
  screen_width_ : Z;
  screen_height_ : Z;
  screen_bpp_ : Z;
  screen_stride_ : Z;
  screen_bitmap_ : list byte;
  started_ : bool;
  force_keyframe_ : bool;
  destroyed_ : bool;
  output_callback_ : option OutputCallback;
  encode_slices_ : list EncodeSlice;
  input_yuv_ : x264_picture_t;
  output_nal_ : list byte;
  output_nal_size_ : Z;
  effects : list effect
}.

Definition with_bitmap (b : list byte) (e : SweetDisplayEncoder) :=
  {| screen_width_ := screen_width_ e; screen_height_ := screen_height_ e;
     screen_bpp_ := screen_bpp_ e; screen_stride_ := screen_stride_ e;
     screen_bitmap_ := b;
     started_ := started_ e; force_keyframe_ := force_keyframe_ e;
     destroyed_ := destroyed_ e; output_callback_ := output_callback_ e;
     encode_slices_ := encode_slices_ e; input_yuv_ := input_yuv_ e;
     output_nal_ := output_nal_ e; output_nal_size_ := output_nal_size_ e;
     effects := effects e |}.

Definition with_started (s : bool) (cb : option OutputCallback) (e : SweetDisplayEncoder) :=
  {| screen_width_ := screen_width_ e; screen_height_ := screen_height_ e;
     screen_bpp_ := screen_bpp_ e; screen_stride_ := screen_stride_ e;
     screen_bitmap_ := screen_bitmap_ e;
     started_ := s; force_keyframe_ := force_keyframe_ e;
     destroyed_ := destroyed_ e; output_callback_ := cb;
     encode_slices_ := encode_slices_ e; input_yuv_ := input_yuv_ e;
     output_nal_ := output_nal_ e; output_nal_size_ := output_nal_size_ e;
     effects := effects e |}.

Definition with_force_keyframe (k : bool) (e : SweetDisplayEncoder) :=
  {| screen_width_ := screen_width_ e; screen_height_ := screen_height_ e;
     screen_bpp_ := screen_bpp_ e; screen_stride_ := screen_stride_ e;
     screen_bitmap_ := screen_bitmap_ e;
     started_ := started_ e; force_keyframe_ := k;
     destroyed_ := destroyed_ e; output_callback_ := output_callback_ e;
     encode_slices_ := encode_slices_ e; input_yuv_ := input_yuv_ e;
     output_nal_ := output_nal_ e; output_nal_size_ := output_nal_size_ e;
     effects := effects e |}.

Definition with_slices (q : list EncodeSlice) (e : SweetDisplayEncoder) :=
  {| screen_width_ := screen_width_ e; screen_height_ := screen_height_ e;
     screen_bpp_ := screen_bpp_ e; screen_stride_ := screen_stride_ e;
     screen_bitmap_ := screen_bitmap_ e;
     started_ := started_ e; force_keyframe_ := force_keyframe_ e;
     destroyed_ := destroyed_ e; output_callback_ := output_callback_ e;
     encode_slices_ := q; input_yuv_ := input_yuv_ e;
     output_nal_ := output_nal_ e; output_nal_size_ := output_nal_size_ e;
     effects := effects e |}.

Definition with_input_yuv (p : x264_picture_t) (e : SweetDisplayEncoder) :=
  {| screen_width_ := screen_width_ e; screen_height_ := screen_height_ e;
     screen_bpp_ := screen_bpp_ e; screen_stride_ := screen_stride_ e;
     screen_bitmap_ := screen_bitmap_ e;
     started_ := started_ e; force_keyframe_ := force_keyframe_ e;
     destroyed_ := destroyed_ e; output_callback_ := output_callback_ e;
     encode_slices_ := encode_slices_ e; input_yuv_ := p;
     output_nal_ := output_nal_ e; output_nal_size_ := output_nal_size_ e;
     effects := effects e |}.

Definition with_output_nal (nal : list byte) (size : Z) (e : SweetDisplayEncoder) :=
  {| screen_width_ := screen_width_ e; screen_height_ := screen_height_ e;
     screen_bpp_ := screen_bpp_ e; screen_stride_ := screen_stride_ e;
     screen_bitmap_ := screen_bitmap_ e;
     started_ := started_ e; force_keyframe_ := force_keyframe_ e;
     destroyed_ := destroyed_ e; output_callback_ := output_callback_ e;
     encode_slices_ := encode_slices_ e; input_yuv_ := input_yuv_ e;
     output_nal_ := nal; output_nal_size_ := size;
     effects := effects e |}.

Definition emit (ev : effect) (e : SweetDisplayEncoder) :=
  {| screen_width_ := screen_width_ e; screen_height_ := screen_height_ e;
     screen_bpp_ := screen_bpp_ e; screen_stride_ := screen_stride_ e;
     screen_bitmap_ := screen_bitmap_ e;
     started_ := started_ e; force_keyframe_ := force_keyframe_ e;
     destroyed_ := destroyed_ e; output_callback_ := output_callback_ e;
     encode_slices_ := encode_slices_ e; input_yuv_ := input_yuv_ e;
     output_nal_ := output_nal_ e; output_nal_size_ := output_nal_size_ e;
     effects := effects e ++ [ev] |}.

(** ** CreateEncodeSlice *)

Definition CreateEncodeSlice (top left bottom right : Z) (e : SweetDisplayEncoder)
  : SweetDisplayEncoder :=
  let width_alignment := 16 in
  let left := if left mod width_alignment =? 0 then left
              else uint (left - left mod width_alignment) in
  let right := if right mod width_alignment =? 0 then right
               else uint (right + uint (width_alignment - right mod width_alignment)) in
  let height_alignment := 2 in
  let top := if top mod height_alignment =? 0 then top
             else uint (top - top mod height_alignment) in
  let bottom := if bottom mod height_alignment =? 0 then bottom
                else uint (bottom + uint (height_alignment - bottom mod height_alignment)) in
  let right := if right >? screen_width_ e then screen_width_ e else right in
  let bottom := if bottom >? screen_height_ e then screen_height_ e else bottom in
  let slice := {| slice_x := left;
                  slice_y := top;
                  slice_width := uint (right - left);
                  slice_height := uint (bottom - top);
                  yuv := x264_picture_alloc (int (uint (right - left)))
                                            (int (uint (bottom - top))) |} in
  with_slices (encode_slices_ e ++ [slice]) e.

(** ** Start, Stop, ForceKeyframe *)

Definition Start (callback : OutputCallback) (e : SweetDisplayEncoder)
  : SweetDisplayEncoder :=
  let e := with_started true (output_callback_ e) e in
  let e := with_force_keyframe true e in
  let e := with_started (started_ e) (Some callback) e in
  CreateEncodeSlice 0 0 (screen_height_ e) (screen_width_ e) e.

Definition Stop (e : SweetDisplayEncoder) : SweetDisplayEncoder :=
  with_started false None e.

Definition ForceKeyframe (e : SweetDisplayEncoder) : SweetDisplayEncoder :=
  emit notify_all (with_force_keyframe true e).

(** ** RenderPartial *)

(** The inner [while (copy_lines > 0 && lines > 0)]: one source row per
    round, [src] walking the segment, [dst] walking the screen bitmap. *)
Fixpoint copy_rows (dst_end dst_stride linesize src_stride : Z)
    (segment : list byte) (copy_lines : nat) (src dst : Z) (lines : nat)
    (bitmap : list byte) : outcome (Z * nat * list byte) :=
  match copy_lines, lines with
  | S copy_lines, S lines =>
      _ ← MV_ASSERT (dst + linesize <=? dst_end);
      bitmap ← memcpy bitmap dst segment src (size_t linesize);
      copy_rows dst_end dst_stride linesize src_stride segment copy_lines
                (src + src_stride) (dst + dst_stride) lines bitmap
  | _, _ => Done (dst, lines, bitmap)
  end.

(** The outer [while (lines > 0 && src_index < partial->vector.size())]. *)
Fixpoint copy_segments (dst_end dst_stride linesize src_stride : Z)
    (segments : list (list byte)) (dst : Z) (lines : nat)
    (bitmap : list byte) : outcome (list byte) :=
  match lines, segments with
  | S _, segment :: segments =>
      if src_stride =? 0 then Undefined DivideByZero
      else
        let copy_lines := len segment / src_stride in
        '(dst, lines, bitmap) ←
          copy_rows dst_end dst_stride linesize src_stride segment
                    (Z.to_nat copy_lines) 0 dst lines bitmap;
        copy_segments dst_end dst_stride linesize src_stride segments dst lines bitmap
  | _, _ => Done bitmap
  end.

(** Returns the screen bitmap after the blit. *)
Definition RenderPartial (partial : DisplayPartialBitmap) (e : SweetDisplayEncoder)
  : outcome (list byte) :=
  let dst := 0 in
  let dst_stride := int (screen_stride_ e) in
  let dst_end := dst + uint (dst_stride * screen_height_ e) in
  let '(dst, dst_stride) :=
    if flip partial then
      (dst + uint (dst_stride * (y partial + height partial - 1)
                   + x partial * (screen_bpp_ e ≫ 3)),
       int (- dst_stride))
    else
      (dst + uint (dst_stride * y partial + x partial * (screen_bpp_ e ≫ 3)),
       dst_stride) in
  let linesize := int (width partial * (screen_bpp_ e ≫ 3)) in
  let lines := Z.to_nat (height partial) in
  copy_segments dst_end dst_stride linesize (stride partial)
                (vector partial) dst lines (screen_bitmap_ e).

(** ** Render *)

Fixpoint Render_partials (partials : list DisplayPartialBitmap) (e : SweetDisplayEncoder)
  : outcome SweetDisplayEncoder :=
  match partials with
  | [] => Done e
  | partial :: partials =>
      bitmap ← RenderPartial partial e;
      let e := with_bitmap bitmap e in
      let e :=
        if started_ e then
          CreateEncodeSlice (y partial) (x partial)
                            (uint (y partial + height partial))
                            (uint (x partial + width partial)) e
        else e in
      Render_partials partials e
  end.

Definition Render (partials : list DisplayPartialBitmap) (e : SweetDisplayEncoder)
  : outcome SweetDisplayEncoder :=
  e ← Render_partials partials e;
  Done (match encode_slices_ e with
        | [] => e
        | _ :: _ => emit notify_all e
        end).

(** ** The encoder thread *)

(** The body of the loop of [ConvertSlices]. The source pointer is
    [screen_bitmap_ + screen_stride_ * y + x * (screen_bpp_ >> 3)]: the two
    [uint] products are added to the pointer one after the other, so each
    wraps by itself and their sum does not. At another depth than 32 or 24
    no routine is called and the slice's picture stays as allocated. *)
Definition convert_slice (e : SweetDisplayEncoder) (slice : EncodeSlice) : EncodeSlice :=
  let src := drop (Z.to_nat (uint (screen_stride_ e * slice_y slice)
                             + uint (slice_x slice * (screen_bpp_ e ≫ 3))))
                  (screen_bitmap_ e) in
  let dst :=
    if screen_bpp_ e =? 32 then
      ARGBToI420 src (int (screen_stride_ e))
                 (int (slice_width slice)) (int (slice_height slice))
    else if screen_bpp_ e =? 24 then
      RGB24ToI420 src (int (screen_stride_ e))
                  (int (slice_width slice)) (int (slice_height slice))
    else yuv slice in
  {| slice_x := slice_x slice; slice_y := slice_y slice;
     slice_width := slice_width slice; slice_height := slice_height slice;
     yuv := dst |}.

(** The log line and its clock reads leave no trace in the state. *)
Definition ConvertSlices (e : SweetDisplayEncoder) : SweetDisplayEncoder :=
  with_slices (convert_slice e <$> encode_slices_ e) e.

Definition DrawSlices (slices : list EncodeSlice) (e : SweetDisplayEncoder)
  : SweetDisplayEncoder :=
  let pic := input_yuv_ e in
  with_input_yuv {| i_type := i_type pic; i_pts := i_pts pic;
                    img := img pic ++ slices |} e.

(** What one call of the codec hands back: its return value and the NAL
    array it leaves in [output_nal_]. *)
Record codec_reply : Type := {
  reply_size : Z;
  reply_nal : list byte
}.

Definition Encode (reply : codec_reply) (e : SweetDisplayEncoder) : SweetDisplayEncoder :=
  let pic := input_yuv_ e in
  let pts := int64_t (i_pts pic + 1) in
  let '(type, e) :=
    if force_keyframe_ e then (X264_TYPE_KEYFRAME, with_force_keyframe false e)
    else (X264_TYPE_AUTO, e) in
  let e := with_input_yuv {| i_type := type; i_pts := pts; img := img pic |} e in
  let e := emit (x264_encoder_encode type pts) e in
  let e := with_output_nal (reply_nal reply) (reply_size reply) e in
  if output_nal_size_ e <? 0 then e else e.

(** One round of the [while (!destroyed_)] loop of [EncodeProcess], from the
    return of [wait_for] on. *)
Definition EncodeProcess_round (reply : codec_reply) (e : SweetDisplayEncoder)
  : SweetDisplayEncoder :=
  if destroyed_ e then e
  else if negb (started_ e) then e
  else
    let e :=
      match encode_slices_ e with
      | [] => e
      | _ :: _ =>
          let e := ConvertSlices e in
          let copied := encode_slices_ e in
          let e := with_slices [] e in
          DrawSlices copied e
      end in
    let e := Encode reply e in
    match output_callback_ e with
    | Some cb => emit (output_callback cb (output_nal_ e) (output_nal_size_ e)) e
    | None => e
    end.

(** Successive rounds, one codec reply each. *)
Fixpoint EncodeProcess (replies : list codec_reply) (e : SweetDisplayEncoder)
  : SweetDisplayEncoder :=
  match replies with
  | [] => e
  | reply :: replies => EncodeProcess replies (EncodeProcess_round reply e)
  end.

(** ** Construction *)

(** Modelled from the spec: the member initialisers are in the class
    declaration, which is not among the sources at hand. The flags are taken
    to start cleared, the queue empty, the picture header zeroed as
    [x264_picture_alloc] leaves it. [new uint8_t[n]] leaves the bytes
    indeterminate: [bitmap] supplies them, cut or zero-filled to [n] bytes. *)
Definition initial_state (width height bpp stride : Z) (bitmap : list byte)
  : SweetDisplayEncoder :=
  let n := Z.to_nat (uint (stride * height)) in
  {| screen_width_ := width; screen_height_ := height;
     screen_bpp_ := bpp; screen_stride_ := stride;
     screen_bitmap_ := take n (bitmap ++ replicate n "000"%byte);
     started_ := false; force_keyframe_ := false; destroyed_ := false;
     output_callback_ := None;
     encode_slices_ := [];
     input_yuv_ := {| i_type := X264_TYPE_AUTO; i_pts := 0; img := [] |};
     output_nal_ := []; output_nal_size_ := 0;
     effects := [] |}.

Definition SweetDisplayEncoder_new (width height bpp stride : Z) (bitmap : list byte)
  : outcome SweetDisplayEncoder :=
  _ ← MV_ASSERT (width mod 2 =? 0);
  _ ← MV_ASSERT (height mod 2 =? 0);
  Done (initial_state width height bpp stride bitmap).

(** ** Calls in sequence *)

Inductive call : Type :=
  | call_Start (callback : OutputCallback)
  | call_Stop
  | call_Render (partials : list DisplayPartialBitmap)
  | call_ForceKeyframe
  | worker_round (reply : codec_reply).

Definition perform (c : call) (e : SweetDisplayEncoder) : outcome SweetDisplayEncoder :=
  match c with
  | call_Start callback => Done (Start callback e)
  | call_Stop => Done (Stop e)
  | call_Render partials => Render partials e
  | call_ForceKeyframe => Done (ForceKeyframe e)
  | worker_round reply => Done (EncodeProcess_round reply e)
  end.

Fixpoint run (calls : list call) (e : SweetDisplayEncoder) : outcome SweetDisplayEncoder :=
  match calls with
  | [] => Done e
  | c :: calls => e ← perform c e; run calls e
  end.

(** ** Predicates of the statements below *)

Definition bytes_per_pixel (e : SweetDisplayEncoder) : Z := screen_bpp_ e ≫ 3.

(** The sizes of a constructed encoder: even (the constructor asserts it)
    and within the [int] that [InitializeX264] hands them to x264 in. *)
Definition even_screen (e : SweetDisplayEncoder) : Prop :=
  screen_width_ e mod 2 = 0 ∧ screen_height_ e mod 2 = 0
  ∧ 0 <= screen_width_ e < 2 ^ 31 ∧ 0 <= screen_height_ e < 2 ^ 31.

(** The bitmap of a constructed encoder: rows of [screen_stride_] bytes that
    hold [screen_width_] pixels, [screen_stride_ * screen_height_] bytes in
    all, fewer than 2^31. *)
Definition screen_geometry (e : SweetDisplayEncoder) : Prop :=
  0 <= screen_width_ e ∧ 0 <= screen_height_ e ∧ 0 <= bytes_per_pixel e
  ∧ screen_width_ e * bytes_per_pixel e <= screen_stride_ e
  ∧ screen_stride_ e < 2 ^ 31
  ∧ screen_stride_ e * screen_height_ e < 2 ^ 31
  ∧ len (screen_bitmap_ e) = screen_stride_ e * screen_height_ e.

Definition in_bounds (e : SweetDisplayEncoder) (p : DisplayPartialBitmap) : bool :=
  (0 <=? x p) && (0 <=? y p) && (0 <=? width p) && (0 <=? height p)
  && (x p + width p <=? screen_width_ e) && (y p + height p <=? screen_height_ e).

Definition renders_in_bounds (e : SweetDisplayEncoder) (c : call) : bool :=
  match c with
  | call_Render partials => forallb (in_bounds e) partials
  | _ => true
  end.

(** What every queued slice satisfies on a [sw] x [sh] screen. *)
Definition slice_fits (sw sh : Z) (s : EncodeSlice) : Prop :=
  slice_x s mod 16 = 0 ∧ slice_y s mod 2 = 0
  ∧ slice_width s mod 2 = 0 ∧ slice_height s mod 2 = 0
  ∧ 0 <= slice_width s ∧ 0 <= slice_height s
  ∧ slice_x s + slice_width s <= sw ∧ slice_y s + slice_height s <= sh
  ∧ (sw mod 16 = 0 → slice_width s mod 16 = 0)
  ∧ (slice_width s mod 16 = 0 ∨ slice_x s + slice_width s = sw).

(** The same with the width a multiple of 16 outright. *)
Definition slice_aligned_16 (sw sh : Z) (s : EncodeSlice) : Prop :=
  slice_x s mod 16 = 0 ∧ slice_width s mod 16 = 0
  ∧ slice_y s mod 2 = 0 ∧ slice_height s mod 2 = 0
  ∧ slice_x s + slice_width s <= sw ∧ slice_y s + slice_height s <= sh.

(** The slice of a partial in the words of the rectangle-alignment rule:
    round left and top down, right and bottom up, clamp to the screen. *)
Definition align_rectangle (sw sh : Z) (top left bottom right : Z) : EncodeSlice :=
  let left := 16 * (left / 16) in
  let right := Z.min (16 * ((right + 15) / 16)) sw in
  let top := 2 * (top / 2) in
  let bottom := Z.min (2 * ((bottom + 1) / 2)) sh in
  {| slice_x := left; slice_y := top;
     slice_width := right - left; slice_height := bottom - top;
     yuv := x264_picture_alloc (right - left) (bottom - top) |}.

Definition expanded_slice (e : SweetDisplayEncoder) (p : DisplayPartialBitmap) : EncodeSlice :=
  align_rectangle (screen_width_ e) (screen_height_ e)
                  (y p) (x p) (y p + height p) (x p + width p).


(** The byte at offset [i], if the list reaches that far. *)
Definition byte_at (l : list byte) (i : Z) : option byte :=
  if 0 <=? i then l !! Z.to_nat i else None.

(** The whole rows of [src_stride] bytes that the segments hold. *)
Definition rows_supplied (src_stride : Z) (segments : list (list byte)) : Z :=
  foldr (λ segment n, len segment / src_stride + n) 0 segments.

(** Every segment is a whole number of source rows. *)
Definition whole_rows (p : DisplayPartialBitmap) : bool :=
  forallb (λ segment, len segment mod stride p =? 0) (vector p).

(** The rectangles of two partials share no pixel. *)
Definition apart (p q : DisplayPartialBitmap) : bool :=
  (x p + width p <=? x q) || (x q + width q <=? x p)
  || (y p + height p <=? y q) || (y q + height q <=? y p).

(** The screen row that source row [r] of a partial is written to. *)
Definition screen_row (p : DisplayPartialBitmap) (r : Z) : Z :=
  if flip p then y p + height p - 1 - r else y p + r.

(** [pos] is a byte of pixel columns [x .. x + width) of screen row [row]. *)
Definition in_row (e : SweetDisplayEncoder) (p : DisplayPartialBitmap) (row pos : Z) : Prop :=
  screen_stride_ e * row + x p * bytes_per_pixel e <= pos
  < screen_stride_ e * row + (x p + width p) * bytes_per_pixel e.

(** Two states describe the same screen. *)
Definition same_screen (e e1 : SweetDisplayEncoder) : Prop :=
  screen_width_ e1 = screen_width_ e ∧ screen_height_ e1 = screen_height_ e
  ∧ screen_bpp_ e1 = screen_bpp_ e ∧ screen_stride_ e1 = screen_stride_ e
  ∧ len (screen_bitmap_ e1) = len (screen_bitmap_ e).

(** A partial the producer may send: inside the screen, with source rows
    that hold a row of its pixels. *)
Definition well_formed (e : SweetDisplayEncoder) (p : DisplayPartialBitmap) : bool :=
  in_bounds e p && (0 <? stride p) && (width p * bytes_per_pixel e <=? stride p).

(** ** Observations on the log *)

(** A state without its log: what the program itself can read. *)
Definition without_log (e : SweetDisplayEncoder) : SweetDisplayEncoder :=
  {| screen_width_ := screen_width_ e; screen_height_ := screen_height_ e;
     screen_bpp_ := screen_bpp_ e; screen_stride_ := screen_stride_ e;
     screen_bitmap_ := screen_bitmap_ e;
     started_ := started_ e; force_keyframe_ := force_keyframe_ e;
     destroyed_ := destroyed_ e; output_callback_ := output_callback_ e;
     encode_slices_ := encode_slices_ e; input_yuv_ := input_yuv_ e;
     output_nal_ := output_nal_ e; output_nal_size_ := output_nal_size_ e;
     effects := [] |}.

(** The frame types submitted to the codec, in order. *)
Definition submitted (log : list effect) : list frame_type :=
  omap (λ ev, match ev with
              | x264_encoder_encode type _ => Some type
              | _ => None
              end) log.

(** The replies that carry output: a size that is not negative. *)
Definition produced (replies : list codec_reply) : Z :=
  len (filter (λ r, 0 <= reply_size r) replies).

(** ** Screens used in the examples *)

(** 32 x 4 pixels of 4 bytes, rows of 128 bytes. *)
Definition screen_32x4 : SweetDisplayEncoder := initial_state 32 4 32 128 [].

(** 64 x 16 pixels of 4 bytes, rows of 256 bytes. *)
Definition screen_64x16 : SweetDisplayEncoder := initial_state 64 16 32 256 [].

(** 18 x 2 pixels of 4 bytes: an even width that is no multiple of 16. *)
Definition screen_18x2 : SweetDisplayEncoder := initial_state 18 2 32 72 [].

(** 32 x 4 pixels of 2 bytes: a depth [ConvertSlices] has no routine for. *)
Definition screen_16bpp : SweetDisplayEncoder := initial_state 32 4 16 64 [].

Definition no_output : codec_reply := {| reply_size := -1; reply_nal := [] |}.

Definition one_nal : codec_reply :=
  {| reply_size := 3; reply_nal := ["000"; "000"; "001"]%byte |}.

(** 16 x 2 pixels of 4 bytes, rows of 64 bytes. *)
Definition screen_16x2 : SweetDisplayEncoder := initial_state 16 2 32 64 [].

(** The state a call returned with, [e] if it did not return. *)
Definition state_after (o : outcome SweetDisplayEncoder) (e : SweetDisplayEncoder)
  : SweetDisplayEncoder :=
  match o with
  | Done e' => e'
  | _ => e
  end.

(** The partial of the alignment example: x=5, y=3, 10 x 5 pixels. *)
Definition uneven_partial : DisplayPartialBitmap :=
  {| vector := [replicate 200 "255"%byte]; stride := 40;
     width := 10; height := 5; x := 5; y := 3; flip := false |}.

(** 8 x 1 pixels in the lower right corner of an 18 x 2 screen. *)
Definition corner_partial : DisplayPartialBitmap :=
  {| vector := [replicate 32 "255"%byte]; stride := 32;
     width := 8; height := 1; x := 10; y := 1; flip := false |}.

(** A flipped partial of two rows that starts 2^26 - 1 rows down: with rows
    of 64 bytes its start offset is 64 * 2^26 = 2^32, which is 0 in [uint]. *)
Definition wrapping_partial : DisplayPartialBitmap :=
  {| vector := [replicate 8 "255"%byte]; stride := 4;
     width := 1; height := 2; x := 0; y := 2 ^ 26 - 1; flip := true |}.

(** One pixel at the origin, all bytes 255; and the same pixel, all bytes 1. *)
Definition white_pixel : DisplayPartialBitmap :=
  {| vector := [replicate 4 "255"%byte]; stride := 4;
     width := 1; height := 1; x := 0; y := 0; flip := false |}.

Definition dark_pixel : DisplayPartialBitmap :=
  {| vector := [replicate 4 "001"%byte]; stride := 4;
     width := 1; height := 1; x := 0; y := 0; flip := false |}.

(** 2 x 2 pixels at (2, 1), bottom-up, one source row per segment. *)
Definition flipped_partial : DisplayPartialBitmap :=
  {| vector := [["001"; "002"; "003"; "004"; "005"; "006"; "007"; "008"]%byte;
                ["011"; "012"; "013"; "014"; "015"; "016"; "017"; "018"]%byte];
     stride := 8; width := 2; height := 2; x := 2; y := 1; flip := true |}.

(** ** Destruction *)

(** The destructor up to the join: it raises [destroyed_] and wakes the
    thread. Closing the codec and freeing the picture and the bitmap follow
    the join and leave nothing to observe. *)
Definition SweetDisplayEncoder_delete (e : SweetDisplayEncoder) : SweetDisplayEncoder :=
  emit notify_all
    {| screen_width_ := screen_width_ e; screen_height_ := screen_height_ e;
       screen_bpp_ := screen_bpp_ e; screen_stride_ := screen_stride_ e;
       screen_bitmap_ := screen_bitmap_ e;
       started_ := started_ e; force_keyframe_ := force_keyframe_ e;
       destroyed_ := true; output_callback_ := output_callback_ e;
       encode_slices_ := encode_slices_ e; input_yuv_ := input_yuv_ e;
       output_nal_ := output_nal_ e; output_nal_size_ := output_nal_size_ e;
       effects := effects e |}.

(** ** What a run of rounds logs *)

(** The log of successive rounds of a started encoder: each round submits
    the picture, with the next timestamp, and then hands the codec's reply
    to the callback, if one is installed. Only the first submission can be
    a keyframe. *)
Fixpoint rounds_log (cb : option OutputCallback) (type : frame_type) (pts : Z)
    (replies : list codec_reply) : list effect :=
  match replies with
  | [] => []
  | reply :: replies =>
      x264_encoder_encode type (pts + 1)
      :: match cb with
         | Some cb => [output_callback cb (reply_nal reply) (reply_size reply)]
         | None => []
         end
      ++ rounds_log cb X264_TYPE_AUTO (pts + 1) replies
  end.

(** [pos] is a byte of the rectangle of one of the partials. *)
Definition in_partials (e : SweetDisplayEncoder) (partials : list DisplayPartialBitmap)
    (pos : Z) : Prop :=
  Exists (λ p, ∃ row, y p <= row < y p + height p ∧ in_row e p row pos) partials.

(** A partial of three rows with a segment list that holds only one. *)
Definition short_partial : DisplayPartialBitmap :=
  {| vector := [replicate 8 "255"%byte]; stride := 8;
     width := 2; height := 3; x := 0; y := 0; flip := false |}.

(** A partial whose source stride is 0. *)
Definition zero_stride_partial : DisplayPartialBitmap :=
  {| vector := [replicate 8 "255"%byte]; stride := 0;
     width := 2; height := 1; x := 0; y := 0; flip := false |}.

(** Two rows that start on the last row of a 32 x 4 screen. *)
Definition low_partial : DisplayPartialBitmap :=
  {| vector := [replicate 16 "255"%byte]; stride := 8;
     width := 2; height := 2; x := 0; y := 3; flip := false |}.

(** ** DrawSlices on the planes *)

(** The image of an I420 picture as x264.h has it: [plane[0..2]] are the Y, U
    and V planes, [i_stride[0..2]] their row pitches. Each plane is a byte
    array of its own. *)
Record x264_image_t : Type := {
  plane0 : list byte; plane1 : list byte; plane2 : list byte;
  i_stride0 : Z; i_stride1 : Z; i_stride2 : Z
}.

(** The [for (uint j = 0; j < rows; j++)] loops of [DrawSlices]: [n] bytes
    per row from [from] to [to], both advancing by their plane's pitch. *)
Fixpoint copy_plane_rows (rows : nat) (n : Z) (to_stride from_stride : Z)
    (to from : Z) (dst src : list byte) : outcome (list byte) :=
  match rows with
  | O => Done dst
  | S rows =>
      dst ← memcpy dst to src from (size_t n);
      copy_plane_rows rows n to_stride from_stride
                      (to + to_stride) (from + from_stride) dst src
  end.

(** The body of the loop over the slices: the three copies of one slice
    whose picture holds the image [src]. Each destination is
    [plane + i_stride * row + column]: the product is a [uint] that wraps by
    itself, and the column is added to the pointer after it. *)
Definition draw_slice (dst : x264_image_t) (slice : EncodeSlice) (src : x264_image_t)
  : outcome x264_image_t :=
  let to := uint (i_stride0 dst * slice_y slice) + slice_x slice in
  y_plane ← copy_plane_rows (Z.to_nat (slice_height slice)) (slice_width slice)
                            (i_stride0 dst) (i_stride0 src) to 0
                            (plane0 dst) (plane0 src);
  let to := uint (i_stride1 dst * (slice_y slice ≫ 1)) + slice_x slice ≫ 1 in
  u_plane ← copy_plane_rows (Z.to_nat (slice_height slice ≫ 1)) (slice_width slice ≫ 1)
                            (i_stride1 dst) (i_stride1 src) to 0
                            (plane1 dst) (plane1 src);
  let to := uint (i_stride2 dst * (slice_y slice ≫ 1)) + slice_x slice ≫ 1 in
  v_plane ← copy_plane_rows (Z.to_nat (slice_height slice ≫ 1)) (slice_width slice ≫ 1)
                            (i_stride2 dst) (i_stride2 src) to 0
                            (plane2 dst) (plane2 src);
  Done {| plane0 := y_plane; plane1 := u_plane; plane2 := v_plane;
          i_stride0 := i_stride0 dst; i_stride1 := i_stride1 dst;
          i_stride2 := i_stride2 dst |}.

(** [DrawSlices] on the planes of [input_yuv_]. [image_of] tells which image
    a slice's picture holds, that is, what libyuv wrote into it. Releasing
    the slices leaves the planes as they are. *)
Fixpoint DrawSlices_planes (image_of : yuv_picture → x264_image_t)
    (slices : list EncodeSlice) (dst : x264_image_t) : outcome x264_image_t :=
  match slices with
  | [] => Done dst
  | slice :: slices =>
      dst ← draw_slice dst slice (image_of (yuv slice));
      DrawSlices_planes image_of slices dst
  end.

(** An I420 image with room for [w] x [h] pixels: the Y plane has [h] rows
    of at least [w] bytes, the U and V planes half as many rows of at least
    half as many bytes; pitches and sizes fit an [int]. *)
Definition image_holds (img : x264_image_t) (w h : Z) : Prop :=
  (0 <= w <= i_stride0 img ∧ 0 <= h ∧ i_stride0 img * h <= len (plane0 img)
   ∧ i_stride0 img < 2 ^ 31 ∧ len (plane0 img) < 2 ^ 31)
  ∧ (w ≫ 1 <= i_stride1 img ∧ i_stride1 img * (h ≫ 1) <= len (plane1 img)
     ∧ i_stride1 img < 2 ^ 31 ∧ len (plane1 img) < 2 ^ 31)
  ∧ (w ≫ 1 <= i_stride2 img ∧ i_stride2 img * (h ≫ 1) <= len (plane2 img)
     ∧ i_stride2 img < 2 ^ 31 ∧ len (plane2 img) < 2 ^ 31).

(** A slice lies on a [sw] x [sh] screen. *)
Definition slice_on_screen (sw sh : Z) (s : EncodeSlice) : Prop :=
  0 <= slice_x s ∧ 0 <= slice_y s ∧ 0 <= slice_width s ∧ 0 <= slice_height s
  ∧ slice_x s + slice_width s <= sw ∧ slice_y s + slice_height s <= sh.

(** Two images have planes of the same pitches and lengths. *)
Definition same_layout (a b : x264_image_t) : Prop :=
  i_stride0 b = i_stride0 a ∧ i_stride1 b = i_stride1 a ∧ i_stride2 b = i_stride2 a
  ∧ len (plane0 b) = len (plane0 a) ∧ len (plane1 b) = len (plane1 a)
  ∧ len (plane2 b) = len (plane2 a).

(** [pos] is a byte of the Y block of one of the slices, in a plane of
    pitch [pitch]. *)
Definition in_luma (pitch : Z) (slices : list EncodeSlice) (pos : Z) : Prop :=
  Exists (λ s, ∃ j, 0 <= j < slice_height s
                    ∧ pitch * (slice_y s + j) + slice_x s <= pos
                      < pitch * (slice_y s + j) + slice_x s + slice_width s) slices.

(** A slice is on the screen and its picture has room for it. *)
Definition drawable (image_of : yuv_picture → x264_image_t) (sw sh : Z)
    (s : EncodeSlice) : Prop :=
  slice_on_screen sw sh s
  ∧ image_holds (image_of (yuv s)) (slice_width s) (slice_height s).

(** A picture of 4 x 2 pixels, all zero, and a tile of 2 x 2 pixels. *)
Definition picture_4x2 : x264_image_t :=
  {| plane0 := replicate 8 "000"%byte; plane1 := replicate 2 "000"%byte;
     plane2 := replicate 2 "000"%byte;
     i_stride0 := 4; i_stride1 := 2; i_stride2 := 2 |}.

Definition tile_2x2 : x264_image_t :=
  {| plane0 := ["001"; "002"; "003"; "004"]%byte; plane1 := ["005"%byte];
     plane2 := ["006"%byte];
     i_stride0 := 2; i_stride1 := 1; i_stride2 := 1 |}.

Definition slice_2x2 : EncodeSlice :=
  {| slice_x := 2; slice_y := 0; slice_width := 2; slice_height := 2;
     yuv := x264_picture_alloc 2 2 |}.

(** The image after a call, [img] if the call did not return. *)
Definition image_after (o : outcome x264_image_t) (img : x264_image_t) : x264_image_t :=
  match o with
  | Done img' => img'
  | _ => img
  end.

(** ** The blit, position by position *)

(** The source byte that the blit of [p] puts at offset [pos] of a bitmap
    with rows of [pitch] bytes and pixels of [B] bytes, if it puts one
    there: [pos] is in screen row [pos / pitch], which receives source row
    [r], provided the segments reach that far. *)
Definition blit_source (pitch B : Z) (p : DisplayPartialBitmap) (pos : Z) : option byte :=
  let row := pos / pitch in
  let col := pos mod pitch in
  let r := if flip p then y p + height p - 1 - row else row - y p in
  if (0 <=? r) && (r <? Z.min (height p) (rows_supplied (stride p) (vector p)))
     && (x p * B <=? col) && (col <? (x p + width p) * B)
  then byte_at (concat (vector p)) (r * stride p + (col - x p * B))
  else None.

(** The bitmap with the pixels of [p] in place. *)
Definition blit (pitch B : Z) (p : DisplayPartialBitmap) (bitmap : list byte) : list byte :=
  imap (λ i b, default b (blit_source pitch B p (Z.of_nat i))) bitmap.

(** The partial with its segments joined into one. *)
Definition one_segment (p : DisplayPartialBitmap) : DisplayPartialBitmap :=
  {| vector := [concat (vector p)]; stride := stride p;
     width := width p; height := height p; x := x p; y := y p; flip := flip p |}.

(** A partial of two rows delivered in two segments of one row each, on top
    of [flipped_partial]'s rectangle but top-down. *)
Definition split_partial : DisplayPartialBitmap :=
  {| vector := [["001"; "002"; "003"; "004"; "005"; "006"; "007"; "008"]%byte;
                ["011"; "012"; "013"; "014"; "015"; "016"; "017"; "018"]%byte];
     stride := 8; width := 2; height := 2; x := 2; y := 1; flip := false |}.
(** * Properties *)

(** ** Machine arithmetic *)

Lemma uint_small z : 0 <= z < 2 ^ 32 → uint z = z.
Proof. intros. unfold uint. apply Z.mod_small. lia. Qed.

Lemma int_small z : - 2 ^ 31 <= z < 2 ^ 31 → int z = z.
Proof. intros. unfold int. rewrite Z.mod_small; lia. Qed.

Lemma size_t_small z : 0 <= z < 2 ^ 64 → size_t z = z.
Proof. intros. unfold size_t. apply Z.mod_small. lia. Qed.

Lemma int64_t_small z : - 2 ^ 63 <= z < 2 ^ 63 → int64_t z = z.
Proof. intros. unfold int64_t. rewrite Z.mod_small; lia. Qed.

Lemma round_down_uint a n :
  0 < n <= 16 → 0 <= a < 2 ^ 32 →
  (if a mod n =? 0 then a else uint (a - a mod n)) = n * (a / n).
Proof.
  intros Hn Ha. pose proof (Z.mod_pos_bound a n ltac:(lia)) as Hm.
  pose proof (Z.div_mod a n ltac:(lia)) as Hd.
  pose proof (Z.mod_le a n ltac:(lia) ltac:(lia)) as Hle.
  destruct (Z.eqb_spec (a mod n) 0); [lia|].
  rewrite uint_small; lia.
Qed.

Lemma round_up_uint a n :
  0 < n <= 16 → 0 <= a → a + n <= 2 ^ 32 →
  (if a mod n =? 0 then a else uint (a + uint (n - a mod n)))
  = n * ((a + (n - 1)) / n).
Proof.
  intros Hn Ha Hb. pose proof (Z.mod_pos_bound a n ltac:(lia)) as Hm.
  pose proof (Z.div_mod a n ltac:(lia)) as Hd.
  assert (Hq : ∀ q r, 0 <= r < n → (n * q + r) / n = q).
  { intros q r Hr. symmetry. apply (Z.div_unique _ _ q r); lia. }
  destruct (Z.eqb_spec (a mod n) 0) as [H0|H0].
  - replace (a + (n - 1)) with (n * (a / n) + (n - 1)) by lia.
    rewrite Hq by lia. lia.
  - rewrite (uint_small (n - a mod n)) by lia. rewrite uint_small by lia.
    replace (a + (n - 1)) with (n * (a / n + 1) + (a mod n - 1)) by lia.
    rewrite Hq by lia. lia.
Qed.

(** ** CreateEncodeSlice *)

Lemma CreateEncodeSlice_rectangle e top left bottom right :
  even_screen e →
  0 <= left <= right → right <= screen_width_ e →
  0 <= top <= bottom → bottom <= screen_height_ e →
  CreateEncodeSlice top left bottom right e
  = with_slices (encode_slices_ e
                 ++ [align_rectangle (screen_width_ e) (screen_height_ e)
                                     top left bottom right]) e.
Proof.
  intros (Hw & Hh & Hwr & Hhr) Hl Hr Ht Hb.
  unfold CreateEncodeSlice, align_rectangle. cbv zeta.
  rewrite (round_down_uint left 16), (round_down_uint top 2) by lia.
  rewrite (round_up_uint right 16), (round_up_uint bottom 2) by lia.
  replace (right + (16 - 1)) with (right + 15) by lia.
  replace (bottom + (2 - 1)) with (bottom + 1) by lia.
  set (r := 16 * ((right + 15) / 16)).
  set (b := 2 * ((bottom + 1) / 2)).
  set (l := 16 * (left / 16)). set (t := 2 * (top / 2)).
  assert (0 <= l <= left ∧ 0 <= t <= top ∧ right <= r ∧ bottom <= b) as (?&?&?&?).
  { subst l t r b. repeat split; Z.to_euclidean_division_equations; lia. }
  clearbody l t r b.
  assert (Hrm : (if r >? screen_width_ e then screen_width_ e else r)
                = Z.min r (screen_width_ e)).
  { destruct (Z.gtb_spec r (screen_width_ e)); lia. }
  assert (Hbm : (if b >? screen_height_ e then screen_height_ e else b)
                = Z.min b (screen_height_ e)).
  { destruct (Z.gtb_spec b (screen_height_ e)); lia. }
  rewrite Hrm, Hbm.
  rewrite (uint_small (Z.min r _ - l)), (uint_small (Z.min b _ - t)) by lia.
  rewrite !int_small by lia. reflexivity.
Qed.

Lemma align_rectangle_fits sw sh top left bottom right :
  sw mod 2 = 0 → sh mod 2 = 0 →
  0 <= left <= right → right <= sw → 0 <= top <= bottom → bottom <= sh →
  slice_fits sw sh (align_rectangle sw sh top left bottom right).
Proof.
  intros. unfold slice_fits, align_rectangle; cbn.
  repeat split; try (Z.to_euclidean_division_equations; lia).
Qed.

Lemma in_bounds_spec e p :
  in_bounds e p = true ↔
  0 <= x p ∧ 0 <= y p ∧ 0 <= width p ∧ 0 <= height p
  ∧ x p + width p <= screen_width_ e ∧ y p + height p <= screen_height_ e.
Proof. unfold in_bounds. rewrite !andb_true_iff, !Z.leb_le. tauto. Qed.

Lemma CreateEncodeSlice_in_bounds e p :
  even_screen e → in_bounds e p = true →
  CreateEncodeSlice (y p) (x p) (uint (y p + height p)) (uint (x p + width p)) e
  = with_slices (encode_slices_ e ++ [expanded_slice e p]) e.
Proof.
  intros He Hb. pose proof He as (Hw & Hh & Hwr & Hhr).
  apply in_bounds_spec in Hb as (?&?&?&?&?&?).
  rewrite (uint_small (y p + height p)), (uint_small (x p + width p)) by lia.
  apply CreateEncodeSlice_rectangle; auto; lia.
Qed.

Lemma expanded_slice_fits e p :
  even_screen e → in_bounds e p = true →
  slice_fits (screen_width_ e) (screen_height_ e) (expanded_slice e p).
Proof.
  intros (Hw & Hh & Hwr & Hhr) Hb.
  apply in_bounds_spec in Hb as (?&?&?&?&?&?).
  apply align_rectangle_fits; lia.
Qed.

(** ** The queue through a sequence of calls *)

Lemma Render_partials_fits partials : ∀ e e',
  even_screen e →
  Forall (slice_fits (screen_width_ e) (screen_height_ e)) (encode_slices_ e) →
  forallb (in_bounds e) partials = true →
  Render_partials partials e = Done e' →
  screen_width_ e' = screen_width_ e ∧ screen_height_ e' = screen_height_ e
  ∧ Forall (slice_fits (screen_width_ e) (screen_height_ e)) (encode_slices_ e').
Proof.
  induction partials as [|p partials IH]; intros e e' He Hq Hb Hrun; cbn in Hrun.
  - injection Hrun as <-. auto.
  - cbn in Hb. apply andb_prop in Hb as [Hp Hb].
    destruct (RenderPartial p e) as [bitmap| |] eqn:Hblit; try discriminate.
    cbn in Hrun.
    destruct (started_ e) eqn:Hs.
    + rewrite (CreateEncodeSlice_in_bounds (with_bitmap bitmap e) p He Hp) in Hrun.
      revert Hrun.
      match goal with
      | |- Render_partials _ ?e1 = _ → _ =>
          intros Hrun; refine (IH e1 _ He _ Hb Hrun)
      end. cbn.
      apply Forall_app; split; [exact Hq|].
      apply Forall_singleton. exact (expanded_slice_fits e p He Hp).
    + exact (IH (with_bitmap bitmap e) _ He Hq Hb Hrun).
Qed.

Lemma Encode_unfold reply e :
  Encode reply e
  = let type := if force_keyframe_ e then X264_TYPE_KEYFRAME else X264_TYPE_AUTO in
    let pts := int64_t (i_pts (input_yuv_ e) + 1) in
    with_output_nal (reply_nal reply) (reply_size reply)
      (emit (x264_encoder_encode type pts)
         (with_input_yuv {| i_type := type; i_pts := pts; img := img (input_yuv_ e) |}
            (with_force_keyframe false e))).
Proof.
  unfold Encode. destruct (force_keyframe_ e) eqn:Hk; cbn;
    destruct (reply_size reply <? 0); try reflexivity;
    destruct e; cbn in *; subst; reflexivity.
Qed.

Lemma EncodeProcess_round_queue reply e :
  let e' := EncodeProcess_round reply e in
  screen_width_ e' = screen_width_ e ∧ screen_height_ e' = screen_height_ e
  ∧ (encode_slices_ e' = encode_slices_ e ∨ encode_slices_ e' = []).
Proof.
  unfold EncodeProcess_round. rewrite !Encode_unfold.
  destruct (destroyed_ e); [cbn; auto|]. destruct (started_ e); [|cbn; auto].
  destruct (encode_slices_ e) eqn:Hq; cbn; destruct (output_callback_ e); cbn;
    rewrite ?Hq; auto.
Qed.

Lemma perform_fits c e e' :
  even_screen e →
  Forall (slice_fits (screen_width_ e) (screen_height_ e)) (encode_slices_ e) →
  renders_in_bounds e c = true →
  perform c e = Done e' →
  screen_width_ e' = screen_width_ e ∧ screen_height_ e' = screen_height_ e
  ∧ Forall (slice_fits (screen_width_ e) (screen_height_ e)) (encode_slices_ e').
Proof.
  intros He Hq Hb Hrun. pose proof He as (Hw & Hh & Hwr & Hhr).
  destruct c as [cb| |partials| |reply]; cbn in Hrun.
  - injection Hrun as <-. unfold Start.
    rewrite CreateEncodeSlice_rectangle; cbn; auto; try lia.
    split; [reflexivity|split; [reflexivity|]]. apply Forall_app; split; auto.
    apply Forall_singleton. apply align_rectangle_fits; lia.
  - injection Hrun as <-. split; [reflexivity|split; [reflexivity|exact Hq]].
  - unfold Render in Hrun.
    destruct (Render_partials partials e) as [e1| |] eqn:Hr; try discriminate.
    cbn in Hrun. injection Hrun as <-.
    apply Render_partials_fits in Hr as (?&?&?); auto.
    destruct (encode_slices_ e1) eqn:Hq1; [rewrite Hq1; auto|].
    cbn. rewrite Hq1. auto.
  - injection Hrun as <-. split; [reflexivity|split; [reflexivity|exact Hq]].
  - injection Hrun as <-.
    destruct (EncodeProcess_round_queue reply e) as (Hw1 & Hh1 & [Hq1|Hq1]);
      rewrite Hq1; auto using Forall_nil_2.
Qed.

Lemma run_fits calls : ∀ e e',
  even_screen e →
  Forall (slice_fits (screen_width_ e) (screen_height_ e)) (encode_slices_ e) →
  forallb (renders_in_bounds e) calls = true →
  run calls e = Done e' →
  screen_width_ e' = screen_width_ e ∧ screen_height_ e' = screen_height_ e
  ∧ Forall (slice_fits (screen_width_ e) (screen_height_ e)) (encode_slices_ e').
Proof.
  induction calls as [|c calls IH]; intros e e' He Hq Hb Hrun; cbn in Hrun.
  - injection Hrun as <-. auto.
  - cbn in Hb. apply andb_prop in Hb as [Hc Hb].
    destruct (perform c e) as [e1| |] eqn:Hp; try discriminate. cbn in Hrun.
    destruct (perform_fits c e e1 He Hq Hc Hp) as (Hw1 & Hh1 & Hq1).
    assert (He1 : even_screen e1).
    { unfold even_screen. rewrite Hw1, Hh1. exact He. }
    assert (Hb1 : forallb (renders_in_bounds e1) calls = true).
    { rewrite forallb_forall in Hb |- *. intros c' Hc'.
      rewrite <- (Hb c' Hc'). destruct c' as [ | |ps| | ]; cbn; auto.
      unfold in_bounds. now rewrite Hw1, Hh1. }
    rewrite <- Hw1, <- Hh1 in Hq1 |- *.
    destruct (IH e1 e' He1 Hq1 Hb1 Hrun) as (?&?&?). auto.
Qed.

(** ** Bytes and memcpy *)

Lemma byte_at_Some (l : list byte) i : 0 <= i < len l → is_Some (byte_at l i).
Proof.
  intros Hi. unfold byte_at. destruct (Z.leb_spec 0 i); [|lia].
  apply lookup_lt_is_Some. unfold len in Hi. lia.
Qed.

Lemma byte_at_app_l (l1 l2 : list byte) i :
  i < len l1 → byte_at (l1 ++ l2) i = byte_at l1 i.
Proof.
  intros Hi. unfold byte_at. destruct (Z.leb_spec 0 i); [|reflexivity].
  apply lookup_app_l. unfold len in Hi. lia.
Qed.

Lemma byte_at_app_r (l1 l2 : list byte) i :
  len l1 <= i → byte_at (l1 ++ l2) i = byte_at l2 (i - len l1).
Proof.
  intros Hi. unfold byte_at, len in *.
  destruct (Z.leb_spec 0 i), (Z.leb_spec 0 (i - Z.of_nat (length l1))); try lia.
  rewrite lookup_app_r by lia. f_equal. lia.
Qed.

Lemma memcpy_Done buf dst from src n buf' :
  0 <= n → memcpy buf dst from src n = Done buf' →
  len buf' = len buf
  ∧ (0 <= dst ∧ dst + n <= len buf) ∧ (0 <= src ∧ src + n <= len from)
  ∧ ∀ i, byte_at buf' i
         = if (dst <=? i) && (i <? dst + n) then byte_at from (src + (i - dst))
           else byte_at buf i.
Proof.
  intros Hn. unfold memcpy.
  destruct (Z.leb_spec 0 dst), (Z.leb_spec (dst + n) (len buf)); cbn; try discriminate.
  destruct (Z.leb_spec 0 src), (Z.leb_spec (src + n) (len from)); cbn; try discriminate.
  intros [= <-]. unfold len in *.
  assert (Hmid : length (take (Z.to_nat n) (drop (Z.to_nat src) from)) = Z.to_nat n).
  { rewrite length_take, length_drop. lia. }
  split; [|split; [lia|split; [lia|]]].
  - rewrite !length_app, Hmid, length_take, length_drop. lia.
  - intros i. unfold byte_at.
    destruct (Z.leb_spec dst i), (Z.ltb_spec i (dst + n)); cbn.
    + destruct (Z.leb_spec 0 i), (Z.leb_spec 0 (src + (i - dst))); try lia.
      rewrite lookup_app_r by (rewrite length_take; lia).
      rewrite length_take, lookup_app_l by (rewrite ?Hmid; lia).
      rewrite lookup_take_lt, lookup_drop by lia. f_equal. lia.
    + destruct (Z.leb_spec 0 i); [|reflexivity].
      rewrite lookup_app_r by (rewrite length_take; lia).
      rewrite length_take, lookup_app_r by (rewrite ?Hmid; lia).
      rewrite Hmid, lookup_drop. f_equal. lia.
    + destruct (Z.leb_spec 0 i); [|reflexivity].
      rewrite lookup_app_l by (rewrite length_take; lia).
      apply lookup_take_lt. lia.
    + lia.
Qed.

Lemma size_t_nonneg z : 0 <= size_t z.
Proof. unfold size_t. apply Z.mod_pos_bound. lia. Qed.

(** Two rows a whole number of pitches apart share no byte when a row is
    no longer than the pitch. *)
Lemma rows_apart pitch linesize i j b :
  linesize <= Z.abs pitch → i ≠ j → 0 <= b < linesize →
  ¬ (j * pitch <= i * pitch + b < j * pitch + linesize).
Proof.
  intros Hp Hij Hb [H1 H2].
  assert (Hd : (j - i) * pitch <= b < (j - i) * pitch + linesize) by lia.
  clear H1 H2. set (d := j - i) in *. assert (d ≠ 0) by lia. clearbody d.
  destruct (Z.le_gt_cases 0 pitch), (Z.le_gt_cases 1 d); nia.
Qed.

(** ** The two loops of RenderPartial *)

Section row_loops.
Variables dst_end dst_stride linesize src_stride : Z.

Lemma copy_rows_step segment copy_lines src dst lines bitmap r :
  copy_rows dst_end dst_stride linesize src_stride segment
            (S copy_lines) src dst (S lines) bitmap = Done r →
  dst + linesize <= dst_end
  ∧ ∃ bitmap1,
      memcpy bitmap dst segment src (size_t linesize) = Done bitmap1
      ∧ copy_rows dst_end dst_stride linesize src_stride segment
                  copy_lines (src + src_stride) (dst + dst_stride) lines bitmap1
        = Done r.
Proof.
  cbn. unfold MV_ASSERT. destruct (Z.leb_spec (dst + linesize) dst_end); cbn;
    [|discriminate].
  destruct (memcpy bitmap dst segment src (size_t linesize)) as [bitmap1| |]; cbn;
    try discriminate.
  intros Hr. split; [assumption|]. exists bitmap1. auto.
Qed.

(** The assertion looks at the end of the row only: a row that starts
    below the bitmap passes it and is written. *)
Lemma copy_rows_below_start segment copy_lines src dst lines bitmap :
  dst < 0 → dst + linesize <= dst_end →
  copy_rows dst_end dst_stride linesize src_stride segment
            (S copy_lines) src dst (S lines) bitmap
  = Undefined (WriteOutside dst (size_t linesize)).
Proof.
  intros Hlow Hup. cbn. unfold MV_ASSERT, memcpy.
  destruct (Z.leb_spec (dst + linesize) dst_end); [cbn|lia].
  destruct (Z.leb_spec 0 dst); [lia|reflexivity].
Qed.

Lemma copy_rows_length segment : ∀ copy_lines src dst lines bitmap dst' lines' bitmap',
  copy_rows dst_end dst_stride linesize src_stride segment
            copy_lines src dst lines bitmap = Done (dst', lines', bitmap') →
  len bitmap' = len bitmap.
Proof.
  induction copy_lines as [|copy_lines IH]; intros src dst lines bitmap dst' lines' bitmap' Hr.
  - cbn in Hr. now injection Hr as _ _ <-.
  - destruct lines as [|lines]; [cbn in Hr; now injection Hr as _ _ <-|].
    apply copy_rows_step in Hr as (_ & bitmap1 & Hm & Hr).
    apply memcpy_Done in Hm as (Hl & _); [|apply size_t_nonneg].
    rewrite <- Hl. eapply IH, Hr.
Qed.

Lemma copy_segments_step segment segments dst lines bitmap bitmap' :
  copy_segments dst_end dst_stride linesize src_stride
                (segment :: segments) dst (S lines) bitmap = Done bitmap' →
  src_stride ≠ 0
  ∧ ∃ dst1 lines1 bitmap1,
      copy_rows dst_end dst_stride linesize src_stride segment
                (Z.to_nat (len segment / src_stride)) 0 dst (S lines) bitmap
      = Done (dst1, lines1, bitmap1)
      ∧ copy_segments dst_end dst_stride linesize src_stride
                      segments dst1 lines1 bitmap1 = Done bitmap'.
Proof.
  cbn [copy_segments]. destruct (Z.eqb_spec src_stride 0); [discriminate|].
  destruct (copy_rows _ _ _ _ _ _ _ _ _ _) as [[[dst1 lines1] bitmap1]| |]; cbn;
    try discriminate.
  intros Hr. split; [assumption|]. exists dst1, lines1, bitmap1. auto.
Qed.

Lemma copy_segments_length segments : ∀ dst lines bitmap bitmap',
  copy_segments dst_end dst_stride linesize src_stride
                segments dst lines bitmap = Done bitmap' →
  len bitmap' = len bitmap.
Proof.
  induction segments as [|segment segments IH]; intros dst lines bitmap bitmap' Hr.
  - destruct lines; cbn in Hr; now injection Hr as <-.
  - destruct lines as [|lines]; [cbn in Hr; now injection Hr as <-|].
    apply copy_segments_step in Hr as (_ & dst1 & lines1 & bitmap1 & Hrows & Hr).
    apply copy_rows_length in Hrows. rewrite <- Hrows. eapply IH, Hr.
Qed.

Hypothesis linesize_range : 0 <= linesize < 2 ^ 64.

(** After the inner loop: [m] rows were copied, row [i] from offset
    [src + i * src_stride] of the segment to offset [dst + i * dst_stride]
    of the bitmap, and no other byte changed. *)
Lemma copy_rows_spec segment : ∀ copy_lines src dst lines bitmap dst' lines' bitmap',
  copy_rows dst_end dst_stride linesize src_stride segment
            copy_lines src dst lines bitmap = Done (dst', lines', bitmap') →
  let m := Z.of_nat (Nat.min copy_lines lines) in
  dst' = dst + m * dst_stride
  ∧ Z.of_nat lines' = Z.of_nat lines - m
  ∧ (∀ i, 0 <= i < m →
       0 <= src + i * src_stride ∧ src + i * src_stride + linesize <= len segment)
  ∧ (∀ pos,
       (∀ i, 0 <= i < m →
          ¬ (dst + i * dst_stride <= pos < dst + i * dst_stride + linesize)) →
       byte_at bitmap' pos = byte_at bitmap pos)
  ∧ (linesize <= Z.abs dst_stride →
     ∀ i b, 0 <= i < m → 0 <= b < linesize →
       byte_at bitmap' (dst + i * dst_stride + b)
       = byte_at segment (src + i * src_stride + b)).
Proof.
  induction copy_lines as [|copy_lines IH];
    intros src dst lines bitmap dst' lines' bitmap' Hr.
  - cbn in Hr. injection Hr as <- <- <-. cbn.
    repeat split; try lia; intros; lia.
  - destruct lines as [|lines].
    { cbn in Hr. injection Hr as <- <- <-. cbn.
      repeat split; try lia; intros; lia. }
    apply copy_rows_step in Hr as (_ & bitmap1 & Hm & Hr).
    apply memcpy_Done in Hm as (_ & _ & Hsrc & Hcopy); [|apply size_t_nonneg].
    rewrite size_t_small in Hsrc, Hcopy by assumption.
    apply IH in Hr as (Hdst & Hlines & Hread & Hframe & Hrows).
    cbv zeta. set (m' := Z.of_nat (Nat.min copy_lines lines)) in *.
    replace (Z.of_nat (Nat.min (S copy_lines) (S lines))) with (m' + 1) by (subst m'; lia).
    assert (0 <= m') by (subst m'; lia).
    split; [lia|]. split; [lia|]. split; [|split].
    + intros i Hi. destruct (Z.eq_dec i 0) as [->|Hne]; [lia|].
      specialize (Hread (i - 1) ltac:(lia)). lia.
    + intros pos Hout. rewrite Hframe.
      * rewrite Hcopy. specialize (Hout 0 ltac:(lia)).
        destruct (Z.leb_spec dst pos), (Z.ltb_spec pos (dst + linesize));
          cbn; try reflexivity. lia.
      * intros i Hi. specialize (Hout (i + 1) ltac:(lia)). lia.
    + intros Hpitch i b Hi Hb. destruct (Z.eq_dec i 0) as [->|Hne].
      * rewrite Hframe.
        -- rewrite Hcopy.
           destruct (Z.leb_spec dst (dst + 0 * dst_stride + b)),
                    (Z.ltb_spec (dst + 0 * dst_stride + b) (dst + linesize));
             cbn; try lia. f_equal. lia.
        -- intros j Hj Hin.
           apply (rows_apart dst_stride linesize 0 (j + 1) b); [assumption|lia|lia|lia].
      * specialize (Hrows Hpitch (i - 1) b ltac:(lia) Hb).
        replace (dst + i * dst_stride + b)
          with (dst + dst_stride + (i - 1) * dst_stride + b) by lia.
        rewrite Hrows. f_equal. lia.
Qed.
End row_loops.

Lemma rows_supplied_cons src_stride segment segments :
  rows_supplied src_stride (segment :: segments)
  = len segment / src_stride + rows_supplied src_stride segments.
Proof. reflexivity. Qed.

Lemma rows_supplied_nonneg src_stride segments :
  0 <= src_stride → 0 <= rows_supplied src_stride segments.
Proof.
  intros Hs. induction segments as [|segment segments IH]; [cbn; lia|].
  rewrite rows_supplied_cons.
  assert (0 <= len segment / src_stride); [|lia].
  destruct (Z.eq_dec src_stride 0) as [->|]; [now rewrite Z.div_0_r|].
  apply Z.div_pos; unfold len; lia.
Qed.

Section segment_loop.
Variables dst_end dst_stride linesize src_stride : Z.
Hypothesis linesize_range : 0 <= linesize < 2 ^ 64.
Hypothesis src_stride_range : 0 <= src_stride.

(** After both loops: [m] rows were copied, row [i] of the concatenated
    segments to offset [dst + i * dst_stride], and no other byte changed. *)
Lemma copy_segments_spec segments : ∀ dst lines bitmap bitmap',
  copy_segments dst_end dst_stride linesize src_stride
                segments dst lines bitmap = Done bitmap' →
  let m := Z.min (Z.of_nat lines) (rows_supplied src_stride segments) in
  (∀ pos,
     (∀ i, 0 <= i < m →
        ¬ (dst + i * dst_stride <= pos < dst + i * dst_stride + linesize)) →
     byte_at bitmap' pos = byte_at bitmap pos)
  ∧ (linesize <= Z.abs dst_stride →
     Forall (λ segment, len segment mod src_stride = 0) segments →
     ∀ i b, 0 <= i < m → 0 <= b < linesize →
       ∃ c, byte_at bitmap' (dst + i * dst_stride + b) = Some c
            ∧ byte_at (concat segments) (i * src_stride + b) = Some c).
Proof.
  induction segments as [|segment segments IH]; intros dst lines bitmap bitmap' Hr.
  - assert (bitmap' = bitmap) as -> by (destruct lines; cbn in Hr; congruence).
    cbn. split; [reflexivity|]. intros; lia.
  - pose proof (rows_supplied_nonneg src_stride segments src_stride_range) as HR.
    destruct lines as [|lines].
    { cbn in Hr. injection Hr as <-. cbv zeta.
      pose proof (rows_supplied_nonneg src_stride (segment :: segments)
                    src_stride_range).
      split; [reflexivity|]. intros; lia. }
    apply copy_segments_step in Hr as (Hs & dst1 & lines1 & bitmap1 & Hrows & Hr).
    apply copy_rows_spec in Hrows as (Hdst & Hlines & Hread & Hframe1 & Hrows);
      [|assumption].
    apply IH in Hr as (Hframe2 & Hrest). clear IH.
    set (n := len segment / src_stride) in *.
    assert (Hn : 0 <= n) by (apply Z.div_pos; unfold len; lia).
    set (m1 := Z.of_nat (Nat.min (Z.to_nat n) (S lines))) in *.
    set (m2 := Z.min (Z.of_nat lines1) (rows_supplied src_stride segments)) in *.
    cbv zeta. rewrite rows_supplied_cons.
    fold n. set (R := rows_supplied src_stride segments) in *.
    assert (Hm1 : m1 = Z.min n (Z.of_nat (S lines))) by (subst m1; lia).
    assert (Hm : Z.min (Z.of_nat (S lines)) (n + R) = m1 + m2) by (subst m2; lia).
    rewrite Hm. clearbody m1 m2 R.
    assert (Hshift : ∀ j, dst1 + j * dst_stride = dst + (m1 + j) * dst_stride)
      by (intros; lia).
    split.
    + intros pos Hout. rewrite Hframe2, Hframe1; [reflexivity| |].
      * intros i Hi. apply Hout. lia.
      * intros j Hj. rewrite Hshift. apply Hout. lia.
    + intros Hpitch Hwhole i b Hi Hb.
      apply Forall_cons in Hwhole as [Hseg Hwhole]. cbn [concat].
      destruct (Z.lt_ge_cases i m1) as [Hlt|Hge].
      * specialize (Hread i ltac:(lia)).
        assert (Hin : 0 <= i * src_stride + b < len segment) by lia.
        destruct (byte_at_Some segment _ Hin) as [c Hc]. exists c.
        rewrite byte_at_app_l by lia. split; [|exact Hc].
        rewrite Hframe2.
        -- rewrite Hrows by (assumption || lia). rewrite <- Hc. f_equal; lia.
        -- intros j Hj. rewrite Hshift. intros Hin'.
           apply (rows_apart dst_stride linesize i (m1 + j) b);
             [assumption|lia|lia|lia].
      * assert (Hfull : m1 = n) by lia.
        destruct (Hrest Hpitch Hwhole (i - n) b ltac:(lia) Hb) as (c & Hc1 & Hc2).
        exists c. rewrite Hshift in Hc1.
        replace (m1 + (i - n)) with i in Hc1 by lia. split; [exact Hc1|].
        assert (Hlen : len segment = n * src_stride).
        { subst n. pose proof (Z.div_mod (len segment) src_stride Hs). lia. }
        rewrite byte_at_app_r by nia.
        rewrite <- Hc2. f_equal. lia.
Qed.
End segment_loop.

Section segment_frame.
Variables dst_end dst_stride linesize src_stride : Z.
Hypothesis linesize_range : 0 <= linesize < 2 ^ 64.

(** Whatever the segments hold, only the first [lines] rows from [dst] on
    can change. *)
Lemma copy_segments_frame segments : ∀ dst lines bitmap bitmap',
  copy_segments dst_end dst_stride linesize src_stride
                segments dst lines bitmap = Done bitmap' →
  ∀ pos,
    (∀ i, 0 <= i < Z.of_nat lines →
       ¬ (dst + i * dst_stride <= pos < dst + i * dst_stride + linesize)) →
    byte_at bitmap' pos = byte_at bitmap pos.
Proof.
  induction segments as [|segment segments IH]; intros dst lines bitmap bitmap' Hr pos Hout.
  - destruct lines; cbn in Hr; congruence.
  - destruct lines as [|lines]; [cbn in Hr; congruence|].
    apply copy_segments_step in Hr as (Hs & dst1 & lines1 & bitmap1 & Hrows & Hr).
    apply copy_rows_spec in Hrows as (Hdst & Hlines & _ & Hframe1 & _); [|assumption].
    set (m1 := Z.of_nat (Nat.min (Z.to_nat (len segment / src_stride)) (S lines))) in *.
    assert (0 <= m1 <= Z.of_nat (S lines)) by (subst m1; lia). clearbody m1.
    rewrite (IH _ _ _ _ Hr), Hframe1; [reflexivity| |].
    + intros i Hi. apply Hout. lia.
    + intros j Hj.
      replace (dst1 + j * dst_stride) with (dst + (m1 + j) * dst_stride) by lia.
      apply Hout. lia.
Qed.
End segment_frame.

Lemma rows_supplied_nonpos src_stride segments :
  src_stride < 0 → rows_supplied src_stride segments <= 0.
Proof.
  intros Hs. induction segments as [|segment segments IH]; [cbn; lia|].
  rewrite rows_supplied_cons.
  assert (len segment / src_stride <= 0); [|lia].
  assert (0 <= len segment) by (unfold len; lia).
  Z.to_euclidean_division_equations. nia.
Qed.

(** ** RenderPartial on a screen *)

Lemma RenderPartial_length p e bitmap' :
  RenderPartial p e = Done bitmap' → len bitmap' = len (screen_bitmap_ e).
Proof.
  unfold RenderPartial. destruct (flip p); apply copy_segments_length.
Qed.

(** With the partial inside the screen no machine integer wraps around. *)
Lemma RenderPartial_in_bounds p e :
  screen_geometry e → in_bounds e p = true → 0 < height p →
  RenderPartial p e
  = copy_segments (screen_stride_ e * screen_height_ e)
      (if flip p then - screen_stride_ e else screen_stride_ e)
      (width p * bytes_per_pixel e) (stride p) (vector p)
      (screen_stride_ e * screen_row p 0 + x p * bytes_per_pixel e)
      (Z.to_nat (height p)) (screen_bitmap_ e).
Proof.
  intros (Hw & Hh & HB & Hrow & Hs & Hsize & Hlen) Hb Hpos.
  apply in_bounds_spec in Hb as (Hx & Hy & Hpw & Hph & Hxw & Hyh).
  unfold RenderPartial, screen_row, bytes_per_pixel in *.
  set (B := screen_bpp_ e ≫ 3) in *. set (pitch := screen_stride_ e) in *.
  assert (0 <= pitch) by nia.
  assert (0 <= x p * B ∧ x p * B + width p * B <= pitch) as [? ?] by nia.
  assert (0 <= width p * B) by nia.
  assert (0 <= pitch * y p
          ∧ pitch * (y p + height p) <= pitch * screen_height_ e) as [? ?] by nia.
  rewrite (int_small pitch) by lia.
  rewrite (uint_small (pitch * screen_height_ e)) by nia.
  rewrite (int_small (width p * B)) by lia.
  destruct (flip p).
  - rewrite int_small by lia. rewrite uint_small by nia.
    f_equal; lia.
  - rewrite uint_small by nia. f_equal; lia.
Qed.

Lemma RenderPartial_no_rows p e :
  height p <= 0 → RenderPartial p e = Done (screen_bitmap_ e).
Proof.
  intros Hh. unfold RenderPartial.
  replace (Z.to_nat (height p)) with 0%nat by lia.
  destruct (flip p), (vector p); reflexivity.
Qed.

Lemma RenderPartial_frame p e bitmap' :
  screen_geometry e → in_bounds e p = true →
  RenderPartial p e = Done bitmap' →
  ∀ pos, (∀ row, y p <= row < y p + height p → ¬ in_row e p row pos) →
         byte_at bitmap' pos = byte_at (screen_bitmap_ e) pos.
Proof.
  intros Hg Hb Hr pos Hout.
  destruct (Z.le_gt_cases (height p) 0) as [Hz|Hpos].
  { rewrite RenderPartial_no_rows in Hr by assumption. congruence. }
  rewrite RenderPartial_in_bounds in Hr by assumption.
  destruct Hg as (Hw & Hh & HB & Hrow & Hs & Hsize & Hlen).
  apply in_bounds_spec in Hb as (Hx & Hy & Hpw & Hph & Hxw & Hyh).
  assert (0 <= width p * bytes_per_pixel e < 2 ^ 64) by nia.
  eapply copy_segments_frame; [eassumption|exact Hr|].
  intros i Hi Hin. unfold in_row, screen_row in *.
  destruct (flip p).
  - apply (Hout (y p + height p - 1 - i)); lia.
  - apply (Hout (y p + i)); lia.
Qed.

Lemma RenderPartial_content p e bitmap' :
  screen_geometry e → in_bounds e p = true →
  whole_rows p = true → height p <= rows_supplied (stride p) (vector p) →
  RenderPartial p e = Done bitmap' →
  ∀ r b, 0 <= r < height p → 0 <= b < width p * bytes_per_pixel e →
    ∃ c, byte_at bitmap' (screen_stride_ e * screen_row p r
                          + x p * bytes_per_pixel e + b) = Some c
         ∧ byte_at (concat (vector p)) (r * stride p + b) = Some c.
Proof.
  intros Hg Hb Hwhole Hrows Hr r b Hrr Hbb.
  rewrite RenderPartial_in_bounds in Hr by (assumption || lia).
  destruct Hg as (Hw & Hh & HB & Hrow & Hs & Hsize & Hlen).
  apply in_bounds_spec in Hb as (Hx & Hy & Hpw & Hph & Hxw & Hyh).
  destruct (Z.lt_ge_cases (stride p) 0) as [Hneg|Hnn].
  { pose proof (rows_supplied_nonpos _ (vector p) Hneg). lia. }
  assert (HL : 0 <= width p * bytes_per_pixel e < 2 ^ 64) by nia.
  apply (copy_segments_spec _ _ _ _ HL Hnn) in Hr as (_ & Hcontent).
  assert (Hpitch : width p * bytes_per_pixel e
                   <= Z.abs (if flip p then - screen_stride_ e else screen_stride_ e)).
  { destruct (flip p); nia. }
  assert (Hseg : Forall (λ segment, len segment mod stride p = 0) (vector p)).
  { apply Forall_forall. intros segment Hin. unfold whole_rows in Hwhole.
    rewrite forallb_forall in Hwhole. apply Z.eqb_eq, Hwhole.
    now apply list_elem_of_In. }
  destruct (Hcontent Hpitch Hseg r b ltac:(lia) Hbb) as (c & Hc1 & Hc2).
  exists c. split; [|exact Hc2]. rewrite <- Hc1. f_equal.
  unfold screen_row. destruct (flip p); lia.
Qed.

(** ** Render on a list of partials *)

Lemma same_screen_refl e : same_screen e e.
Proof. repeat split. Qed.

Lemma same_screen_trans e e1 e2 :
  same_screen e e1 → same_screen e1 e2 → same_screen e e2.
Proof. unfold same_screen. intros (?&?&?&?&?) (?&?&?&?&?). repeat split; congruence. Qed.

Lemma same_screen_geometry e e1 :
  same_screen e e1 → screen_geometry e → screen_geometry e1.
Proof.
  unfold same_screen, screen_geometry, bytes_per_pixel.
  intros (-> & -> & -> & -> & ->). auto.
Qed.

Lemma same_screen_in_bounds e e1 q :
  same_screen e e1 → in_bounds e1 q = in_bounds e q.
Proof. unfold same_screen, in_bounds. intros (-> & -> & _). reflexivity. Qed.

Lemma Render_partials_step p partials e e' :
  Render_partials (p :: partials) e = Done e' →
  ∃ bitmap e1,
    RenderPartial p e = Done bitmap
    ∧ same_screen e e1 ∧ screen_bitmap_ e1 = bitmap
    ∧ Render_partials partials e1 = Done e'.
Proof.
  cbn [Render_partials].
  destruct (RenderPartial p e) as [bitmap| |] eqn:Hblit; cbn; try discriminate.
  intros Hr. exists bitmap. eexists. split; [reflexivity|].
  split; [|split; [|exact Hr]].
  - apply RenderPartial_length in Hblit.
    destruct (started_ e); repeat split; exact Hblit.
  - destruct (started_ e); reflexivity.
Qed.

Lemma Render_partials_screen partials : ∀ e e',
  Render_partials partials e = Done e' → same_screen e e'.
Proof.
  induction partials as [|p partials IH]; intros e e' Hr.
  - cbn in Hr. injection Hr as <-. apply same_screen_refl.
  - apply Render_partials_step in Hr as (bitmap & e1 & _ & Hsame & _ & Hr).
    eapply same_screen_trans; eauto.
Qed.

Lemma Render_partials_app before : ∀ after e e',
  Render_partials (before ++ after) e = Done e' →
  ∃ e1, Render_partials before e = Done e1 ∧ Render_partials after e1 = Done e'.
Proof.
  induction before as [|p before IH]; intros after e e' Hr.
  - exists e. auto.
  - cbn [app Render_partials] in *.
    destruct (RenderPartial p e) as [bitmap| |]; cbn in *; try discriminate.
    apply IH in Hr. exact Hr.
Qed.

(** The rows of two partials that are apart share no byte. *)
Lemma apart_rows e p q row row' pos :
  screen_geometry e → in_bounds e p = true → in_bounds e q = true →
  apart p q = true →
  y p <= row < y p + height p → y q <= row' < y q + height q →
  in_row e p row pos → in_row e q row' pos → False.
Proof.
  intros (Hw & Hh & HB & Hrow & Hs & Hsize & Hlen) Hp Hq Hapart Hr Hr'.
  apply in_bounds_spec in Hp as (?&?&?&?&?&?).
  apply in_bounds_spec in Hq as (?&?&?&?&?&?).
  unfold apart in Hapart. rewrite !orb_true_iff, !Z.leb_le in Hapart.
  unfold in_row. set (B := bytes_per_pixel e) in *. set (pitch := screen_stride_ e) in *.
  intros Hin Hin'.
  assert (0 <= x p * B ∧ (x p + width p) * B <= pitch) as [? ?] by nia.
  assert (0 <= x q * B ∧ (x q + width q) * B <= pitch) as [? ?] by nia.
  assert (row = row') by nia. subst row'.
  destruct Hapart as [[[Ha|Ha]|Ha]|Ha]; try lia.
  - assert ((x p + width p) * B <= x q * B) by nia. lia.
  - assert ((x q + width q) * B <= x p * B) by nia. lia.
Qed.

Lemma Render_partials_frame p partials : ∀ e e',
  screen_geometry e → in_bounds e p = true →
  forallb (λ q, in_bounds e q && apart p q) partials = true →
  Render_partials partials e = Done e' →
  ∀ row pos, y p <= row < y p + height p → in_row e p row pos →
    byte_at (screen_bitmap_ e') pos = byte_at (screen_bitmap_ e) pos.
Proof.
  induction partials as [|q partials IH]; intros e e' Hg Hp Hall Hr row pos Hrow Hin.
  - cbn in Hr. now injection Hr as <-.
  - cbn in Hall. apply andb_prop in Hall as [Hq Hall].
    apply andb_prop in Hq as [Hq Hapart].
    apply Render_partials_step in Hr as (bitmap & e1 & Hblit & Hsame & Hbm & Hr).
    pose proof Hsame as (Ew & Eh & Eb & Es & El).
    assert (Hp1 : in_bounds e1 p = true)
      by now rewrite (same_screen_in_bounds e e1).
    assert (Hall1 : forallb (λ q, in_bounds e1 q && apart p q) partials = true).
    { rewrite forallb_forall in Hall |- *. intros q' Hq'.
      rewrite (same_screen_in_bounds e e1) by assumption. now apply Hall. }
    assert (Hin1 : in_row e1 p row pos).
    { unfold in_row, bytes_per_pixel in *. now rewrite Es, Eb. }
    rewrite (IH e1 e' (same_screen_geometry _ _ Hsame Hg) Hp1 Hall1 Hr row pos Hrow Hin1).
    rewrite Hbm. eapply RenderPartial_frame; eauto.
    intros row' Hrow' Hin'. eapply (apart_rows e p q); eauto.
Qed.

(** ** Render returns *)

Lemma memcpy_returns bitmap dst from src n :
  0 <= dst → dst + n <= len bitmap → 0 <= src → src + n <= len from →
  ∃ bitmap', memcpy bitmap dst from src n = Done bitmap'.
Proof.
  intros. unfold memcpy.
  destruct (Z.leb_spec 0 dst), (Z.leb_spec (dst + n) (len bitmap)); try lia.
  destruct (Z.leb_spec 0 src), (Z.leb_spec (src + n) (len from)); try lia.
  cbn. eauto.
Qed.

Section loops_return.
Variables dst_end dst_stride linesize src_stride : Z.
Hypothesis linesize_range : 0 <= linesize < 2 ^ 64.

Lemma copy_rows_returns segment : ∀ copy_lines src dst lines bitmap,
  dst_end <= len bitmap →
  (∀ i, 0 <= i < Z.of_nat (Nat.min copy_lines lines) →
     0 <= dst + i * dst_stride ∧ dst + i * dst_stride + linesize <= dst_end) →
  (∀ i, 0 <= i < Z.of_nat (Nat.min copy_lines lines) →
     0 <= src + i * src_stride ∧ src + i * src_stride + linesize <= len segment) →
  ∃ r, copy_rows dst_end dst_stride linesize src_stride segment
                 copy_lines src dst lines bitmap = Done r.
Proof.
  induction copy_lines as [|copy_lines IH]; intros src dst lines bitmap Hend Hdst Hsrc.
  - cbn. eauto.
  - destruct lines as [|lines]; [cbn; eauto|].
    cbn [copy_rows]. unfold MV_ASSERT.
    pose proof (Hdst 0 ltac:(lia)) as Hd0. pose proof (Hsrc 0 ltac:(lia)) as Hs0.
    destruct (Z.leb_spec (dst + linesize) dst_end); [cbn|lia].
    rewrite size_t_small by assumption.
    destruct (memcpy_returns bitmap dst segment src linesize) as [bitmap1 Hm];
      try lia.
    rewrite Hm. cbn. apply memcpy_Done in Hm as (Hl & _); [|lia].
    apply IH.
    + lia.
    + intros i Hi. specialize (Hdst (i + 1) ltac:(lia)). lia.
    + intros i Hi. specialize (Hsrc (i + 1) ltac:(lia)). lia.
Qed.

Hypothesis src_stride_range : 0 < src_stride.
Hypothesis row_fits : linesize <= src_stride.

Lemma copy_segments_returns segments : ∀ dst lines bitmap,
  dst_end <= len bitmap →
  (∀ i, 0 <= i < Z.of_nat lines →
     0 <= dst + i * dst_stride ∧ dst + i * dst_stride + linesize <= dst_end) →
  ∃ bitmap', copy_segments dst_end dst_stride linesize src_stride
                           segments dst lines bitmap = Done bitmap'.
Proof.
  induction segments as [|segment segments IH]; intros dst lines bitmap Hend Hdst.
  - destruct lines; cbn; eauto.
  - destruct lines as [|lines]; [cbn; eauto|].
    cbn [copy_segments]. destruct (Z.eqb_spec src_stride 0) as [|Hne]; [lia|].
    set (n := len segment / src_stride).
    assert (Hn : 0 <= n ∧ n * src_stride <= len segment).
    { subst n. assert (0 <= len segment) by (unfold len; lia).
      Z.to_euclidean_division_equations. nia. }
    destruct (copy_rows_returns segment (Z.to_nat n) 0 dst (S lines) bitmap)
      as [[[dst1 lines1] bitmap1] Hrows].
    + exact Hend.
    + intros i Hi. apply Hdst. lia.
    + intros i Hi. nia.
    + rewrite Hrows. cbn.
      pose proof (copy_rows_length _ _ _ _ _ _ _ _ _ _ _ _ _ Hrows) as Hl.
      apply copy_rows_spec in Hrows as (Hdst1 & Hlines1 & _); [|assumption].
      set (m1 := Z.of_nat (Nat.min (Z.to_nat n) (S lines))) in *.
      assert (0 <= m1) by (subst m1; lia). clearbody m1.
      apply IH; [lia|]. intros i Hi.
      replace (dst1 + i * dst_stride) with (dst + (m1 + i) * dst_stride) by lia.
      apply Hdst. lia.
Qed.
End loops_return.

Lemma well_formed_spec e p :
  well_formed e p = true ↔
  in_bounds e p = true ∧ 0 < stride p ∧ width p * bytes_per_pixel e <= stride p.
Proof.
  unfold well_formed. rewrite !andb_true_iff, Z.ltb_lt, Z.leb_le. tauto.
Qed.

Lemma RenderPartial_returns p e :
  screen_geometry e → well_formed e p = true →
  ∃ bitmap', RenderPartial p e = Done bitmap'.
Proof.
  intros Hg Hwf. apply well_formed_spec in Hwf as (Hb & Hs & Hfit).
  destruct (Z.le_gt_cases (height p) 0) as [Hz|Hpos].
  { rewrite RenderPartial_no_rows by assumption. eauto. }
  rewrite RenderPartial_in_bounds by assumption.
  destruct Hg as (Hw & Hh & HB & Hrow & Hss & Hsize & Hlen).
  apply in_bounds_spec in Hb as (Hx & Hy & Hpw & Hph & Hxw & Hyh).
  apply copy_segments_returns; try lia; [nia|].
  intros i Hi. unfold screen_row.
  set (B := bytes_per_pixel e) in *. set (pitch := screen_stride_ e) in *.
  assert (0 <= x p * B ∧ x p * B + width p * B <= pitch) as [? ?] by nia.
  destruct (flip p).
  - assert (0 <= pitch * (y p + height p - 1 - i)
            ∧ pitch * (y p + height p - i) <= pitch * screen_height_ e) by nia.
    lia.
  - assert (0 <= pitch * (y p + i)
            ∧ pitch * (y p + i + 1) <= pitch * screen_height_ e) by nia.
    lia.
Qed.

Lemma same_screen_well_formed e e1 q :
  same_screen e e1 → well_formed e1 q = well_formed e q.
Proof.
  intros Hsame. unfold well_formed, bytes_per_pixel.
  rewrite (same_screen_in_bounds e e1) by assumption.
  destruct Hsame as (_ & _ & -> & _). reflexivity.
Qed.

Lemma Render_partials_returns partials : ∀ e,
  screen_geometry e → forallb (well_formed e) partials = true →
  ∃ e', Render_partials partials e = Done e'.
Proof.
  induction partials as [|p partials IH]; intros e Hg Hall; [cbn; eauto|].
  cbn in Hall. apply andb_prop in Hall as [Hp Hall].
  destruct (RenderPartial_returns p e Hg Hp) as [bitmap Hblit].
  cbn [Render_partials]. rewrite Hblit. cbn.
  apply RenderPartial_length in Hblit.
  match goal with
  | |- ∃ e', Render_partials _ ?e1 = _ => assert (Hsame : same_screen e e1)
  end.
  { destruct (started_ e); repeat split; exact Hblit. }
  apply IH.
  - eapply same_screen_geometry; eassumption.
  - rewrite forallb_forall in Hall |- *. intros q Hq.
    rewrite (same_screen_well_formed e) by assumption. now apply Hall.
Qed.

(** On the screen of a constructed encoder, [Render] returns for every list
    of well-formed partials. *)
Lemma Render_returns partials e :
  screen_geometry e → forallb (well_formed e) partials = true →
  ∃ e', Render partials e = Done e'.
Proof.
  intros Hg Hall. destruct (Render_partials_returns partials e Hg Hall) as [e' He'].
  unfold Render. rewrite He'. cbn. eauto.
Qed.

(** ** The constructor *)

Lemma SweetDisplayEncoder_new_screen width height bpp stride bitmap e :
  SweetDisplayEncoder_new width height bpp stride bitmap = Done e →
  0 <= width < 2 ^ 31 → 0 <= height < 2 ^ 31 →
  even_screen e ∧ encode_slices_ e = [] ∧ started_ e = false.
Proof.
  unfold SweetDisplayEncoder_new, MV_ASSERT.
  destruct (Z.eqb_spec (width mod 2) 0); cbn; [|discriminate].
  destruct (Z.eqb_spec (height mod 2) 0); cbn; [|discriminate].
  intros [= <-] Hw Hh. unfold even_screen; cbn. auto.
Qed.

Lemma SweetDisplayEncoder_new_geometry width height bpp stride bitmap e :
  SweetDisplayEncoder_new width height bpp stride bitmap = Done e →
  0 <= width → 0 <= height → 0 <= bpp →
  width * (bpp ≫ 3) <= stride → stride < 2 ^ 31 → stride * height < 2 ^ 31 →
  screen_geometry e.
Proof.
  unfold SweetDisplayEncoder_new, MV_ASSERT.
  destruct (Z.eqb_spec (width mod 2) 0); cbn; [|discriminate].
  destruct (Z.eqb_spec (height mod 2) 0); cbn; [|discriminate].
  intros [= <-] Hw Hh Hb Hrow Hs Hsize.
  unfold screen_geometry, bytes_per_pixel; cbn.
  assert (0 <= bpp ≫ 3) by (apply Z.shiftr_nonneg; lia).
  assert (0 <= stride * height) by nia.
  repeat split; try lia.
  unfold len. rewrite length_take, length_app, length_replicate.
  rewrite uint_small by lia. lia.
Qed.

(** ** The encoder thread *)

Lemma EncodeProcess_round_started reply e :
  destroyed_ e = false → started_ e = true →
  EncodeProcess_round reply e
  = let e1 := match encode_slices_ e with
              | [] => e
              | _ :: _ => DrawSlices (convert_slice e <$> encode_slices_ e)
                                     (with_slices [] (ConvertSlices e))
              end in
    let e2 := Encode reply e1 in
    match output_callback_ e with
    | Some cb => emit (output_callback cb (reply_nal reply) (reply_size reply)) e2
    | None => e2
    end.
Proof.
  intros Hd Hs. unfold EncodeProcess_round. rewrite Hd, Hs. cbn.
  rewrite !Encode_unfold.
  destruct (encode_slices_ e) eqn:Hq; cbn; destruct (output_callback_ e); reflexivity.
Qed.

Lemma EncodeProcess_round_flags reply e :
  let e' := EncodeProcess_round reply e in
  destroyed_ e' = destroyed_ e ∧ started_ e' = started_ e.
Proof.
  unfold EncodeProcess_round. rewrite !Encode_unfold.
  destruct (destroyed_ e) eqn:Hd; [cbn; auto|].
  destruct (started_ e) eqn:Hs; [|cbn; auto].
  destruct (encode_slices_ e); cbn; destruct (output_callback_ e); cbn; auto.
Qed.

Lemma EncodeProcess_round_pts reply e :
  destroyed_ e = false → started_ e = true →
  i_pts (input_yuv_ (EncodeProcess_round reply e))
  = int64_t (i_pts (input_yuv_ e) + 1).
Proof.
  intros Hd Hs. rewrite EncodeProcess_round_started by assumption.
  cbv zeta. rewrite !Encode_unfold.
  destruct (encode_slices_ e); destruct (output_callback_ e); reflexivity.
Qed.

Lemma EncodeProcess_round_submits reply e :
  destroyed_ e = false → started_ e = true →
  let e' := EncodeProcess_round reply e in
  force_keyframe_ e' = false
  ∧ submitted (effects e')
    = submitted (effects e)
      ++ [if force_keyframe_ e then X264_TYPE_KEYFRAME else X264_TYPE_AUTO].
Proof.
  intros Hd Hs. cbv zeta. rewrite EncodeProcess_round_started by assumption.
  cbv zeta. rewrite !Encode_unfold. unfold submitted.
  destruct (encode_slices_ e); destruct (output_callback_ e); cbn;
    rewrite ?omap_app; cbn; rewrite ?app_nil_r; auto.
Qed.

Lemma ForceKeyframe_iter k e :
  let e' := Nat.iter k ForceKeyframe e in
  destroyed_ e' = destroyed_ e ∧ started_ e' = started_ e
  ∧ submitted (effects e') = submitted (effects e)
  ∧ (0 < k → force_keyframe_ e' = true)%nat.
Proof.
  induction k as [|k IH]; cbn.
  - repeat split; auto. lia.
  - destruct IH as (Hd & Hs & Hl & Hk). repeat split; auto.
    unfold submitted in *. rewrite omap_app. cbn. now rewrite app_nil_r.
Qed.

Lemma EncodeProcess_auto replies : ∀ e,
  destroyed_ e = false → started_ e = true → force_keyframe_ e = false →
  let e' := EncodeProcess replies e in
  force_keyframe_ e' = false
  ∧ submitted (effects e')
    = submitted (effects e) ++ replicate (length replies) X264_TYPE_AUTO.
Proof.
  induction replies as [|reply replies IH]; intros e Hd Hs Hk; cbn.
  - now rewrite app_nil_r.
  - destruct (EncodeProcess_round_flags reply e) as (Hd1 & Hs1).
    destruct (EncodeProcess_round_submits reply e Hd Hs) as (Hk1 & Hl1).
    rewrite Hd in Hd1. rewrite Hs in Hs1. rewrite Hk in Hl1.
    destruct (IH _ Hd1 Hs1 Hk1) as (Hk2 & Hl2). split; [exact Hk2|].
    rewrite Hl2, Hl1, <- app_assoc. reflexivity.
Qed.

(** * The claims *)

(** C1. A round of the encoder thread in which the codec returns a negative
    size does not skip the output callback: with a callback installed, the
    round submits the picture and then calls the callback with the NAL array
    and that negative size. [Encode] tests the size and returns, but the call
    sits in [EncodeProcess], after [Encode] has returned. *)
Theorem negative_size_reaches_callback reply e cb :
  destroyed_ e = false → started_ e = true → output_callback_ e = Some cb →
  reply_size reply < 0 →
  ∃ type pts,
    effects (EncodeProcess_round reply e)
    = effects e ++ [x264_encoder_encode type pts;
                    output_callback cb (reply_nal reply) (reply_size reply)].
Proof.
  intros Hd Hs Hcb _. rewrite EncodeProcess_round_started by assumption.
  cbv zeta. rewrite Hcb, !Encode_unfold.
  eexists _, _. destruct (encode_slices_ e); cbn; rewrite <- app_assoc; reflexivity.
Qed.

Lemma negative_size_reaches_callback_witness :
  ∃ type pts,
    effects (EncodeProcess_round no_output (Start 7%nat screen_32x4))
    = [x264_encoder_encode type pts; output_callback 7%nat [] (-1)].
Proof.
  apply (negative_size_reaches_callback no_output (Start 7%nat screen_32x4) 7%nat);
    [reflexivity | reflexivity | reflexivity | cbn; lia].
Defined.

(** C3, as stated: the timestamp after a run of rounds is the initial one
    plus the number of rounds with output. One round without output already
    refutes it: the timestamp has advanced. *)
Lemma pts_counts_output_rounds_counterexample :
  let e := Start 7%nat screen_32x4 in
  i_pts (input_yuv_ (EncodeProcess [no_output] e))
  ≠ i_pts (input_yuv_ e) + produced [no_output].
Proof. vm_compute. discriminate. Qed.

(** C3, amended. [Encode] increments the timestamp before it calls the
    codec: after any run of rounds of a started encoder the timestamp is the
    initial one plus the number of rounds, whatever sizes the codec returned,
    as long as it stays within [int64_t]. *)
Theorem pts_counts_rounds replies : ∀ e,
  destroyed_ e = false → started_ e = true →
  - 2 ^ 63 <= i_pts (input_yuv_ e) →
  i_pts (input_yuv_ e) + len replies < 2 ^ 63 →
  i_pts (input_yuv_ (EncodeProcess replies e)) = i_pts (input_yuv_ e) + len replies.
Proof.
  unfold len.
  induction replies as [|reply replies IH]; intros e Hd Hs Hlo Hhi; cbn [EncodeProcess].
  - cbn. lia.
  - cbn [length] in Hhi.
    destruct (EncodeProcess_round_flags reply e) as (Hd1 & Hs1).
    rewrite Hd in Hd1. rewrite Hs in Hs1.
    pose proof (EncodeProcess_round_pts reply e Hd Hs) as Hp.
    rewrite int64_t_small in Hp by lia.
    rewrite IH; auto; rewrite Hp; cbn [length]; lia.
Qed.

Lemma pts_counts_rounds_witness :
  i_pts (input_yuv_ (EncodeProcess [no_output; one_nal; no_output]
                                   (Start 7%nat screen_32x4))) = 3.
Proof.
  apply (pts_counts_rounds [no_output; one_nal; no_output] (Start 7%nat screen_32x4));
    [reflexivity | reflexivity | cbn; lia | unfold len; cbn; lia].
Defined.

(** C4. With a depth other than 32 and 24, [ConvertSlices] does not abort:
    it returns and leaves the encoder as it was, every queued slice with the
    picture it had, which is the one [x264_picture_alloc] left unwritten. *)
Theorem ConvertSlices_other_depth e :
  screen_bpp_ e ≠ 32 → screen_bpp_ e ≠ 24 → ConvertSlices e = e.
Proof.
  intros H32 H24. unfold ConvertSlices.
  assert (Hid : convert_slice e <$> encode_slices_ e = encode_slices_ e).
  { induction (encode_slices_ e) as [|s q IH]; [reflexivity|].
    cbn. rewrite IH. f_equal. unfold convert_slice.
    destruct (Z.eqb_spec (screen_bpp_ e) 32); [contradiction|].
    destruct (Z.eqb_spec (screen_bpp_ e) 24); [contradiction|].
    destruct s; reflexivity. }
  rewrite Hid. destruct e; reflexivity.
Qed.

Lemma ConvertSlices_other_depth_witness :
  ConvertSlices (Start 7%nat screen_16bpp) = Start 7%nat screen_16bpp
  ∧ yuv <$> encode_slices_ (Start 7%nat screen_16bpp) = [x264_picture_alloc 32 4].
Proof.
  split; [|reflexivity].
  apply (ConvertSlices_other_depth (Start 7%nat screen_16bpp)); cbn; lia.
Defined.

(** C7. [Start] installs the callback, sets [started_] and
    [force_keyframe_], and appends one slice, the whole screen, when the
    screen has even sizes. *)
Theorem Start_enqueues_full_screen (callback : OutputCallback) e :
  even_screen e →
  let e' := Start callback e in
  output_callback_ e' = Some callback
  ∧ started_ e' = true
  ∧ force_keyframe_ e' = true
  ∧ encode_slices_ e'
    = encode_slices_ e
      ++ [{| slice_x := 0; slice_y := 0;
             slice_width := screen_width_ e; slice_height := screen_height_ e;
             yuv := x264_picture_alloc (screen_width_ e) (screen_height_ e) |}].
Proof.
  intros He. pose proof He as (Hw & Hh & Hwr & Hhr). cbv zeta. unfold Start.
  rewrite CreateEncodeSlice_rectangle; cbn; auto; try lia.
  repeat split. do 2 f_equal. unfold align_rectangle.
  assert (Hr : Z.min (16 * ((screen_width_ e + 15) / 16)) (screen_width_ e)
               = screen_width_ e).
  { Z.to_euclidean_division_equations; lia. }
  assert (Hb : Z.min (2 * ((screen_height_ e + 1) / 2)) (screen_height_ e)
               = screen_height_ e).
  { Z.to_euclidean_division_equations; lia. }
  rewrite Hr, Hb. cbn. rewrite !Z.sub_0_r. reflexivity.
Qed.

Lemma Start_enqueues_full_screen_witness :
  let e' := Start 7%nat screen_18x2 in
  output_callback_ e' = Some 7%nat
  ∧ started_ e' = true
  ∧ force_keyframe_ e' = true
  ∧ encode_slices_ e'
    = [{| slice_x := 0; slice_y := 0; slice_width := 18; slice_height := 2;
          yuv := x264_picture_alloc 18 2 |}].
Proof.
  apply (Start_enqueues_full_screen 7%nat screen_18x2).
  unfold even_screen; cbn; repeat split; lia.
Defined.

(** C8. However often [ForceKeyframe] was called before them, the rounds
    that follow submit one keyframe, in the first round, and automatic
    frames after it; the flag is clear at the end. *)
Theorem ForceKeyframe_once k reply replies e :
  destroyed_ e = false → started_ e = true → (1 <= k)%nat →
  let e' := EncodeProcess (reply :: replies) (Nat.iter k ForceKeyframe e) in
  submitted (effects e')
  = submitted (effects e)
    ++ X264_TYPE_KEYFRAME :: replicate (length replies) X264_TYPE_AUTO
  ∧ force_keyframe_ e' = false.
Proof.
  intros Hd Hs Hk. cbv zeta. cbn [EncodeProcess].
  destruct (ForceKeyframe_iter k e) as (Hd0 & Hs0 & Hl0 & Hk0).
  rewrite Hd in Hd0. rewrite Hs in Hs0. specialize (Hk0 ltac:(lia)).
  set (e0 := Nat.iter k ForceKeyframe e) in *.
  destruct (EncodeProcess_round_flags reply e0) as (Hd1 & Hs1).
  destruct (EncodeProcess_round_submits reply e0 Hd0 Hs0) as (Hk1 & Hl1).
  rewrite Hd0 in Hd1. rewrite Hs0 in Hs1. rewrite Hk0, Hl0 in Hl1.
  destruct (EncodeProcess_auto replies _ Hd1 Hs1 Hk1) as (Hk2 & Hl2).
  split; [|exact Hk2]. rewrite Hl2, Hl1, <- app_assoc. reflexivity.
Qed.

Lemma ForceKeyframe_once_witness :
  let e := EncodeProcess [one_nal] (Start 7%nat screen_32x4) in
  let e' := EncodeProcess [one_nal; no_output; one_nal] (Nat.iter 3 ForceKeyframe e) in
  submitted (effects e')
  = [X264_TYPE_KEYFRAME; X264_TYPE_KEYFRAME; X264_TYPE_AUTO; X264_TYPE_AUTO]
  ∧ force_keyframe_ e' = false.
Proof.
  apply (ForceKeyframe_once 3 one_nal [no_output; one_nal]
           (EncodeProcess [one_nal] (Start 7%nat screen_32x4)));
    [reflexivity | reflexivity | lia].
Defined.

(** C9, as stated: [Render] of no partial does nothing, the condition
    variable included, whatever the queue holds. The test before
    [notify_all] is on the whole queue, not on what the call added: with the
    full-screen slice of [Start] still queued, [Render] of no partial wakes
    the encoder thread, started or stopped. *)
Lemma Render_nothing_silent_counterexample :
  Render [] (Start 7%nat screen_32x4)
  = Done (emit notify_all (Start 7%nat screen_32x4))
  ∧ Render [] (Stop (Start 7%nat screen_32x4))
    = Done (emit notify_all (Stop (Start 7%nat screen_32x4)))
  ∧ ¬ (∀ e e', Render [] e = Done e' → effects e' = effects e).
Proof.
  split; [reflexivity|split; [reflexivity|]]. intros H.
  specialize (H (Stop (Start 7%nat screen_32x4)) _ eq_refl).
  vm_compute in H. discriminate.
Qed.

(** C9, amended. [Render] of no partial returns and changes nothing the
    program reads: the queue, the bitmap and every other member are as
    before, with or without [started_], whatever the queue holds. It calls
    [notify_all] exactly when the queue was not empty before the call, and
    does nothing at all when it was empty. *)
Theorem Render_nothing e :
  ∃ e', Render [] e = Done e'
        ∧ length (encode_slices_ e') = length (encode_slices_ e)
        ∧ screen_bitmap_ e' = screen_bitmap_ e
        ∧ without_log e' = without_log e
        ∧ effects e' = effects e ++ (if encode_slices_ e is [] then [] else [notify_all]).
Proof.
  unfold Render; cbn. destruct (encode_slices_ e) eqn:Hq.
  - exists e. rewrite Hq, app_nil_r. auto 10.
  - eexists. split; [reflexivity|]. cbn. rewrite Hq. repeat split.
Qed.

(** C2, as stated: every queued slice has a width that is a multiple of 16.
    On a screen 18 pixels wide the slice of [Start] is 18 wide. *)
Lemma queued_slices_aligned_16_counterexample :
  screen_width_ screen_18x2 mod 2 = 0 ∧ screen_height_ screen_18x2 mod 2 = 0
  ∧ ¬ Forall (slice_aligned_16 18 2) (encode_slices_ (Start 7%nat screen_18x2)).
Proof.
  split; [reflexivity|split; [reflexivity|]]. intros H.
  apply Forall_inv in H. destruct H as (_ & Hw & _). vm_compute in Hw. discriminate.
Qed.

(** C2, amended. On a screen with even sizes, whatever [Start], [Stop],
    [Render] of in-bounds partials, [ForceKeyframe] and the encoder thread do
    in whatever order, every queued slice has [x] a multiple of 16, [y],
    width and height multiples of 2, and lies within the screen; its width is
    a multiple of 16 unless the slice ends at the right edge of the screen,
    hence always when the screen width is a multiple of 16. *)
Theorem queued_slices_fit calls e e' :
  even_screen e → encode_slices_ e = [] →
  forallb (renders_in_bounds e) calls = true →
  run calls e = Done e' →
  Forall (slice_fits (screen_width_ e) (screen_height_ e)) (encode_slices_ e').
Proof.
  intros He Hq Hb Hrun.
  refine (proj2 (proj2 (run_fits calls e e' He _ Hb Hrun))).
  rewrite Hq. constructor.
Qed.

Lemma queued_slices_fit_witness :
  Forall (slice_fits 18 2)
         (encode_slices_
            (state_after (run [call_Start 7%nat; call_Render [corner_partial]]
                              screen_18x2) screen_18x2)).
Proof.
  apply (queued_slices_fit [call_Start 7%nat; call_Render [corner_partial]] screen_18x2);
    [unfold even_screen; cbn; repeat split; lia
    | reflexivity | reflexivity | vm_compute; reflexivity].
Defined.

(** C5, as stated, at its example: the partial x=5, y=3, w=10, h=5 gets a
    slice of height 4. It gets one of height 6, from row 2 to row 8. *)
Lemma slice_of_uneven_partial_counterexample :
  let e := CreateEncodeSlice (y uneven_partial) (x uneven_partial)
             (uint (y uneven_partial + height uneven_partial))
             (uint (x uneven_partial + width uneven_partial)) screen_64x16 in
  ¬ ∃ s, encode_slices_ e = [s]
         ∧ slice_x s = 0 ∧ slice_y s = 2 ∧ slice_width s = 16 ∧ slice_height s = 4.
Proof.
  cbv zeta. intros (s & Hs & _ & _ & _ & Hh).
  vm_compute in Hs. injection Hs as <-. vm_compute in Hh. discriminate.
Qed.

(** C5, amended. The slice made for a partial rectangle has its left edge
    at [x] rounded down to a multiple of 16, its right edge at [x + width]
    rounded up to a multiple of 16 and then cut to the screen width, its top
    at [y] rounded down to a multiple of 2, its bottom at [y + height]
    rounded up to a multiple of 2 and then cut to the screen height, as long
    as the rounding stays within [uint]; width and height are the [uint]
    differences of the edges. At x=5, y=3, w=10, h=5 that is x=0, y=2,
    width=16, height=6. *)
Theorem slice_of_partial e p :
  0 <= x p → 0 <= y p → 0 <= width p → 0 <= height p →
  x p + width p + 16 <= 2 ^ 32 → y p + height p + 2 <= 2 ^ 32 →
  let left := 16 * (x p / 16) in
  let right := Z.min (16 * ((x p + width p + 15) / 16)) (screen_width_ e) in
  let top := 2 * (y p / 2) in
  let bottom := Z.min (2 * ((y p + height p + 1) / 2)) (screen_height_ e) in
  encode_slices_ (CreateEncodeSlice (y p) (x p) (uint (y p + height p))
                                    (uint (x p + width p)) e)
  = encode_slices_ e
    ++ [{| slice_x := left; slice_y := top;
           slice_width := uint (right - left);
           slice_height := uint (bottom - top);
           yuv := x264_picture_alloc (int (uint (right - left)))
                                     (int (uint (bottom - top))) |}].
Proof.
  intros Hx Hy Hw Hh Hxw Hyh. cbv zeta. unfold CreateEncodeSlice. cbv zeta.
  rewrite (uint_small (y p + height p)), (uint_small (x p + width p)) by lia.
  rewrite (round_down_uint (x p) 16), (round_down_uint (y p) 2) by lia.
  rewrite (round_up_uint (x p + width p) 16), (round_up_uint (y p + height p) 2) by lia.
  replace (x p + width p + (16 - 1)) with (x p + width p + 15) by lia.
  replace (y p + height p + (2 - 1)) with (y p + height p + 1) by lia.
  set (r := 16 * ((x p + width p + 15) / 16)).
  set (b := 2 * ((y p + height p + 1) / 2)).
  replace (if r >? screen_width_ e then screen_width_ e else r)
    with (Z.min r (screen_width_ e))
    by (destruct (Z.gtb_spec r (screen_width_ e)); lia).
  replace (if b >? screen_height_ e then screen_height_ e else b)
    with (Z.min b (screen_height_ e))
    by (destruct (Z.gtb_spec b (screen_height_ e)); lia).
  reflexivity.
Qed.

Lemma slice_of_partial_witness :
  encode_slices_ (CreateEncodeSlice 3 5 8 15 screen_64x16)
  = [{| slice_x := 0; slice_y := 2; slice_width := 16; slice_height := 6;
        yuv := x264_picture_alloc 16 6 |}].
Proof.
  apply (slice_of_partial screen_64x16 uneven_partial); cbn; lia.
Defined.

(** C10. The assertion of [RenderPartial] bounds a row from above only. A
    flipped partial far outside the screen, whose start offset wraps around
    in [uint], passes it with a destination below the bitmap, and the row is
    written there: no [Abort] comes first. *)
Theorem unchecked_write_below_bitmap :
  ∃ e p dst n,
    even_screen e ∧ screen_geometry e
    ∧ flip p = true ∧ in_bounds e p = false
    ∧ dst < 0 ∧ dst + n <= len (screen_bitmap_ e)
    ∧ RenderPartial p e = Undefined (WriteOutside dst n).
Proof.
  exists screen_16x2, wrapping_partial, (-64), 4.
  unfold even_screen, screen_geometry.
  repeat split; try reflexivity; try (cbn; lia); vm_compute; congruence.
Qed.

(** C6, as stated: after [Render] every partial of the list has its pixels
    in the bitmap. When a later partial of the same list covers the same
    pixel, the bitmap holds the later bytes. *)
Lemma Render_blits_every_partial_counterexample :
  let e := screen_32x4 in
  let p := white_pixel in
  ∃ e', Render [p; dark_pixel] e = Done e'
        ∧ screen_geometry e ∧ in_bounds e p = true ∧ whole_rows p = true
        ∧ height p <= rows_supplied (stride p) (vector p)
        ∧ byte_at (screen_bitmap_ e')
                  (screen_stride_ e * screen_row p 0 + (x p + 0) * bytes_per_pixel e + 0)
          ≠ byte_at (concat (vector p)) (0 * stride p + 0 * bytes_per_pixel e + 0).
Proof.
  cbv zeta. eexists. split; [vm_compute; reflexivity|].
  unfold screen_geometry.
  repeat split; try reflexivity; try (vm_compute; congruence).
Qed.

(** C6, amended. Take a screen whose rows hold its width, [Render] on a list
    of partials that returns, and in the list an in-bounds partial [p] whose
    segments are whole source rows, at least [height p] of them, and which
    no later partial of the list overlaps (the later ones being in bounds).
    Then every byte [k] of every pixel [(u, r)] of [p] is in the bitmap:
    source row [r] of the concatenated segments lies in screen row [y + r],
    or in row [y + height - 1 - r] when [flip] is set. *)
Theorem Render_blits before p after e e' :
  screen_geometry e →
  in_bounds e p = true → whole_rows p = true →
  height p <= rows_supplied (stride p) (vector p) →
  forallb (λ q, in_bounds e q && apart p q) after = true →
  Render (before ++ p :: after) e = Done e' →
  ∀ r u k, 0 <= r < height p → 0 <= u < width p → 0 <= k < bytes_per_pixel e →
    ∃ c, byte_at (screen_bitmap_ e')
                 (screen_stride_ e * screen_row p r + (x p + u) * bytes_per_pixel e + k)
         = Some c
         ∧ byte_at (concat (vector p)) (r * stride p + u * bytes_per_pixel e + k)
           = Some c.
Proof.
  intros Hg Hb Hwhole Hrows Hafter Hrender r u k Hr Hu Hk.
  unfold Render in Hrender.
  destruct (Render_partials (before ++ p :: after) e) as [e3| |] eqn:Hrun;
    try discriminate.
  cbn in Hrender. injection Hrender as <-.
  assert (Hbm3 : ∀ q : list EncodeSlice,
             screen_bitmap_ (match q with [] => e3 | _ :: _ => emit notify_all e3 end)
             = screen_bitmap_ e3) by (intros []; reflexivity).
  rewrite Hbm3. clear Hbm3.
  apply Render_partials_app in Hrun as (e1 & Hbefore & Hrun).
  apply Render_partials_screen in Hbefore as Hsame1.
  apply Render_partials_step in Hrun as (bitmap & e2 & Hblit & Hsame2 & Hbm & Hrun).
  pose proof (same_screen_trans _ _ _ Hsame1 Hsame2) as Hsame.
  pose proof Hsame1 as (_ & _ & Eb1 & Es1 & _).
  pose proof Hsame as (_ & _ & Eb2 & Es2 & _).
  pose proof (same_screen_geometry _ _ Hsame1 Hg) as Hg1.
  pose proof (same_screen_geometry _ _ Hsame Hg) as Hg2.
  assert (Hb1 : in_bounds e1 p = true) by now rewrite (same_screen_in_bounds e e1).
  assert (Hb2 : in_bounds e2 p = true) by now rewrite (same_screen_in_bounds e e2).
  assert (Hafter2 : forallb (λ q, in_bounds e2 q && apart p q) after = true).
  { rewrite forallb_forall in Hafter |- *. intros q Hq.
    rewrite (same_screen_in_bounds e e2) by assumption. now apply Hafter. }
  apply in_bounds_spec in Hb as (Hx & Hy & Hpw & Hph & Hxw & Hyh).
  set (B := bytes_per_pixel e) in *.
  assert (HB1 : bytes_per_pixel e1 = B) by (unfold B, bytes_per_pixel; now rewrite Eb1).
  assert (HB2 : bytes_per_pixel e2 = B) by (unfold B, bytes_per_pixel; now rewrite Eb2).
  assert (Hbyte : 0 <= u * B + k < width p * B) by nia.
  destruct (RenderPartial_content p e1 bitmap Hg1 Hb1 Hwhole Hrows Hblit r (u * B + k))
    as (c & Hc1 & Hc2); [assumption|rewrite HB1; exact Hbyte|].
  rewrite HB1, Es1 in Hc1. exists c. split.
  - assert (Hrow : y p <= screen_row p r < y p + height p).
    { unfold screen_row. destruct (flip p); lia. }
    rewrite (Render_partials_frame p after e2 e3 Hg2 Hb2 Hafter2 Hrun (screen_row p r)).
    + rewrite Hbm, <- Hc1. f_equal. lia.
    + exact Hrow.
    + unfold in_row. rewrite HB2, Es2. nia.
  - rewrite <- Hc2. f_equal. lia.
Qed.

Lemma Render_blits_witness :
  ∃ c, byte_at (screen_bitmap_
                  (state_after (Render [dark_pixel; flipped_partial; white_pixel]
                                       screen_32x4) screen_32x4))
               (128 * 2 + (2 + 1) * 4 + 2) = Some c
       ∧ byte_at (concat (vector flipped_partial)) (0 * 8 + 1 * 4 + 2) = Some c.
Proof.
  apply (Render_blits [dark_pixel] flipped_partial [white_pixel] screen_32x4
           (state_after (Render [dark_pixel; flipped_partial; white_pixel]
                                screen_32x4) screen_32x4))
    with (r := 0) (u := 1) (k := 2);
    [ unfold screen_geometry; repeat split; vm_compute; congruence
    | reflexivity | reflexivity | vm_compute; congruence | reflexivity
    | vm_compute; reflexivity
    | vm_compute; split; congruence
    | vm_compute; split; congruence
    | vm_compute; split; congruence ].
Defined.

(** * Further properties of the encoder *)

(** ** Render and the queue *)

Lemma Render_partials_stopped partials : ∀ e e',
  started_ e = false → Render_partials partials e = Done e' →
  started_ e' = false ∧ encode_slices_ e' = encode_slices_ e
  ∧ effects e' = effects e.
Proof.
  induction partials as [|p partials IH]; intros e e' Hs Hr.
  - cbn in Hr. injection Hr as <-. auto.
  - cbn [Render_partials] in Hr.
    destruct (RenderPartial p e) as [bitmap| |]; cbn in Hr; try discriminate.
    rewrite Hs in Hr. apply IH in Hr; [exact Hr|exact Hs].
Qed.

(** X1. While the encoder is not started, [Render] that returns queues no
    slice: the queue is as before, and the only thing logged is the
    [notify_all] for slices that were already queued. *)
Theorem Render_stopped_queues_nothing partials e e' :
  started_ e = false → Render partials e = Done e' →
  encode_slices_ e' = encode_slices_ e
  ∧ started_ e' = false
  ∧ effects e' = effects e ++ (if encode_slices_ e is [] then [] else [notify_all]).
Proof.
  intros Hs Hr. unfold Render in Hr.
  destruct (Render_partials partials e) as [e1| |] eqn:Hrun; try discriminate.
  cbn in Hr. injection Hr as <-.
  apply Render_partials_stopped in Hrun as (Hs1 & Hq1 & Hl1); [|exact Hs].
  rewrite <- Hq1, <- Hl1, <- Hs1.
  destruct (encode_slices_ e1) eqn:Hq; cbn; rewrite ?Hq, ?app_nil_r; auto.
Qed.

Lemma Render_stopped_queues_nothing_witness :
  let e' := state_after (Render [flipped_partial; white_pixel] screen_32x4) screen_32x4 in
  encode_slices_ e' = [] ∧ started_ e' = false ∧ effects e' = [].
Proof.
  apply (Render_stopped_queues_nothing [flipped_partial; white_pixel] screen_32x4);
    [reflexivity | vm_compute; reflexivity].
Defined.

Lemma Render_partials_started partials : ∀ e e',
  even_screen e → started_ e = true →
  forallb (in_bounds e) partials = true →
  Render_partials partials e = Done e' →
  encode_slices_ e' = encode_slices_ e ++ (expanded_slice e <$> partials)
  ∧ effects e' = effects e.
Proof.
  induction partials as [|p partials IH]; intros e e' He Hs Hb Hr.
  - cbn in Hr. injection Hr as <-. cbn. now rewrite app_nil_r.
  - cbn in Hb. apply andb_prop in Hb as [Hp Hb].
    cbn [Render_partials] in Hr.
    destruct (RenderPartial p e) as [bitmap| |]; cbn in Hr; try discriminate.
    rewrite Hs in Hr.
    rewrite (CreateEncodeSlice_in_bounds (with_bitmap bitmap e) p He Hp) in Hr.
    revert Hr.
    match goal with
    | |- Render_partials _ ?e1 = _ → _ =>
        intros Hr; destruct (IH e1 e' He Hs Hb Hr) as (Hq & Hl)
    end.
    cbn in Hq, Hl. rewrite Hq, Hl, <- app_assoc. auto.
Qed.

(** X2. On a started encoder with even screen sizes, [Render] of in-bounds
    partials that returns appends one slice per partial, in the order of the
    list and after what was queued, each the aligned rectangle of its
    partial; then it calls [notify_all] once unless the queue is empty. *)
Theorem Render_started_queues_in_order partials e e' :
  even_screen e → started_ e = true →
  forallb (in_bounds e) partials = true →
  Render partials e = Done e' →
  encode_slices_ e' = encode_slices_ e ++ (expanded_slice e <$> partials)
  ∧ effects e' = effects e ++ (if encode_slices_ e' is [] then [] else [notify_all]).
Proof.
  intros He Hs Hb Hr. unfold Render in Hr.
  destruct (Render_partials partials e) as [e1| |] eqn:Hrun; try discriminate.
  cbn in Hr. injection Hr as <-.
  apply Render_partials_started in Hrun as (Hq1 & Hl1); auto.
  rewrite <- Hq1, <- Hl1. destruct (encode_slices_ e1) eqn:Hq; cbn; rewrite Hq.
  - now rewrite app_nil_r.
  - auto.
Qed.

Lemma Render_started_queues_in_order_witness :
  let e := Start 7%nat screen_32x4 in
  let e' := state_after (Render [flipped_partial; white_pixel] e) e in
  slice_x <$> encode_slices_ e' = [0; 0; 0]
  ∧ slice_width <$> encode_slices_ e' = [32; 16; 16]
  ∧ slice_y <$> encode_slices_ e' = [0; 0; 0]
  ∧ slice_height <$> encode_slices_ e' = [4; 4; 2]
  ∧ effects e' = [notify_all].
Proof.
  cbv zeta.
  destruct (Render_started_queues_in_order [flipped_partial; white_pixel]
              (Start 7%nat screen_32x4)
              (state_after (Render [flipped_partial; white_pixel]
                                   (Start 7%nat screen_32x4))
                           (Start 7%nat screen_32x4))) as (Hq & Hl);
    [unfold even_screen; cbn; repeat split; lia
    | reflexivity | reflexivity | vm_compute; reflexivity |].
  rewrite Hl, Hq. vm_compute. repeat split.
Defined.

(** ** Render and the bitmap *)

Lemma in_partials_cons e p partials pos :
  in_partials e (p :: partials) pos ↔
  (∃ row, y p <= row < y p + height p ∧ in_row e p row pos)
  ∨ in_partials e partials pos.
Proof. unfold in_partials. apply Exists_cons. Qed.

Lemma same_screen_in_partials e e1 partials pos :
  same_screen e e1 → in_partials e1 partials pos ↔ in_partials e partials pos.
Proof.
  intros (_ & _ & Eb & Es & _). unfold in_partials, in_row, bytes_per_pixel.
  now rewrite Eb, Es.
Qed.

Lemma Render_partials_untouched partials : ∀ e e',
  screen_geometry e → forallb (in_bounds e) partials = true →
  Render_partials partials e = Done e' →
  ∀ pos, ¬ in_partials e partials pos →
    byte_at (screen_bitmap_ e') pos = byte_at (screen_bitmap_ e) pos.
Proof.
  induction partials as [|p partials IH]; intros e e' Hg Hb Hr pos Hout.
  - cbn in Hr. now injection Hr as <-.
  - cbn in Hb. apply andb_prop in Hb as [Hp Hb].
    apply Render_partials_step in Hr as (bitmap & e1 & Hblit & Hsame & Hbm & Hr).
    rewrite in_partials_cons in Hout.
    rewrite (IH e1 e' (same_screen_geometry _ _ Hsame Hg)); [| |exact Hr|].
    + rewrite Hbm. apply (RenderPartial_frame p e bitmap Hg Hp Hblit).
      intros row Hrow Hin. apply Hout. left. eauto.
    + rewrite forallb_forall in Hb |- *. intros q Hq.
      rewrite (same_screen_in_bounds e e1) by assumption. now apply Hb.
    + rewrite (same_screen_in_partials e e1) by assumption. tauto.
Qed.

(** X3. [Render] of in-bounds partials that returns changes no byte of the
    bitmap outside the rectangles of its partials, and leaves the bitmap as
    long as it was. *)
Theorem Render_touches_rectangles_only partials e e' pos :
  screen_geometry e → forallb (in_bounds e) partials = true →
  Render partials e = Done e' →
  ¬ in_partials e partials pos →
  byte_at (screen_bitmap_ e') pos = byte_at (screen_bitmap_ e) pos
  ∧ len (screen_bitmap_ e') = len (screen_bitmap_ e).
Proof.
  intros Hg Hb Hr Hout. unfold Render in Hr.
  destruct (Render_partials partials e) as [e1| |] eqn:Hrun; try discriminate.
  cbn in Hr. injection Hr as <-.
  assert (Hbm : screen_bitmap_ (match encode_slices_ e1 with
                                | [] => e1
                                | _ :: _ => emit notify_all e1
                                end) = screen_bitmap_ e1)
    by (destruct (encode_slices_ e1); reflexivity).
  rewrite Hbm. split.
  - eapply Render_partials_untouched; eassumption.
  - apply Render_partials_screen in Hrun as (_ & _ & _ & _ & Hl). exact Hl.
Qed.

Lemma Render_touches_rectangles_only_witness :
  let e' := state_after (Render [flipped_partial; white_pixel] screen_32x4) screen_32x4 in
  byte_at (screen_bitmap_ e') 4 = byte_at (screen_bitmap_ screen_32x4) 4
  ∧ len (screen_bitmap_ e') = len (screen_bitmap_ screen_32x4).
Proof.
  apply (Render_touches_rectangles_only [flipped_partial; white_pixel] screen_32x4);
    [ unfold screen_geometry; repeat split; vm_compute; congruence
    | reflexivity | vm_compute; reflexivity | ].
  unfold in_partials. rewrite !Exists_cons, Exists_nil.
  unfold in_row, bytes_per_pixel. cbn. change (32 ≫ 3) with 4.
  intros [(row & Hrow & Hin)|[(row & Hrow & Hin)|[]]]; lia.
Defined.

(** X4. [RenderPartial] stops without complaint where the segment list
    ends: the rows of an in-bounds partial that its whole-row segments do
    not supply keep the bytes they had. *)
Theorem RenderPartial_short_segments p e bitmap' r pos :
  screen_geometry e → in_bounds e p = true → 0 <= stride p →
  RenderPartial p e = Done bitmap' →
  rows_supplied (stride p) (vector p) <= r < height p →
  in_row e p (screen_row p r) pos →
  byte_at bitmap' pos = byte_at (screen_bitmap_ e) pos.
Proof.
  intros Hg Hb Hs Hr Hrow Hin.
  pose proof (rows_supplied_nonneg _ (vector p) Hs) as Hn.
  rewrite RenderPartial_in_bounds in Hr by (assumption || lia).
  destruct Hg as (Hw & Hh & HB & Hfit & Hss & Hsize & Hlen).
  apply in_bounds_spec in Hb as (Hx & Hy & Hpw & Hph & Hxw & Hyh).
  assert (HL : 0 <= width p * bytes_per_pixel e < 2 ^ 64) by nia.
  apply (copy_segments_spec _ _ _ _ HL Hs) in Hr as (Hframe & _).
  apply Hframe. intros i Hi Hrow'.
  unfold in_row, screen_row in *.
  set (B := bytes_per_pixel e) in *. set (pitch := screen_stride_ e) in *.
  assert (0 <= x p * B ∧ (x p + width p) * B <= pitch) as [? ?] by nia.
  assert (i ≠ r) by lia.
  destruct (flip p).
  - assert (y p + height p - 1 - i = y p + height p - 1 - r) by nia. lia.
  - assert (y p + i = y p + r) by nia. lia.
Qed.

Lemma RenderPartial_short_segments_witness :
  byte_at (screen_bitmap_ (state_after (Render [short_partial] screen_32x4) screen_32x4))
          (128 * 1 + 3)
  = byte_at (screen_bitmap_ screen_32x4) (128 * 1 + 3).
Proof.
  apply (RenderPartial_short_segments short_partial screen_32x4) with (r := 1);
    [ unfold screen_geometry; repeat split; vm_compute; congruence
    | reflexivity | cbn; lia | vm_compute; reflexivity
    | vm_compute; split; congruence
    | unfold in_row; vm_compute; split; congruence ].
Defined.

(** X5. A partial with source stride 0, at least one row and at least one
    segment makes [RenderPartial] divide by zero: nothing checks the stride
    before [iov_len / partial->stride]. *)
Theorem RenderPartial_zero_stride p e :
  stride p = 0 → 0 < height p → vector p ≠ [] →
  RenderPartial p e = Undefined DivideByZero.
Proof.
  intros Hs Hh Hv. unfold RenderPartial. rewrite Hs.
  destruct (Z.to_nat (height p)) as [|lines] eqn:Hl; [lia|].
  destruct (vector p) as [|segment segments]; [contradiction|].
  destruct (flip p); reflexivity.
Qed.

Lemma RenderPartial_zero_stride_witness :
  Render [zero_stride_partial] screen_32x4 = Undefined DivideByZero.
Proof.
  unfold Render; cbn [Render_partials].
  rewrite (RenderPartial_zero_stride zero_stride_partial screen_32x4);
    [reflexivity | reflexivity | reflexivity | discriminate].
Defined.

(** ** The assertion of RenderPartial *)

Lemma uint_int_mul a b : uint (int a * b) = uint (a * b).
Proof.
  unfold uint, int.
  rewrite (Z.mod_eq (a + 2 ^ 31) (2 ^ 32)) by lia.
  replace ((a + 2 ^ 31 - 2 ^ 32 * ((a + 2 ^ 31) / 2 ^ 32) - 2 ^ 31) * b)
    with (a * b + (- ((a + 2 ^ 31) / 2 ^ 32) * b) * 2 ^ 32) by lia.
  apply Z_mod_plus_full.
Qed.

Section no_overrun.
Variables dst_end dst_stride linesize src_stride : Z.
Hypothesis linesize_range : 0 <= linesize < 2 ^ 64.

Lemma copy_rows_no_overrun segment : ∀ copy_lines src dst lines bitmap d n,
  dst_end <= len bitmap →
  copy_rows dst_end dst_stride linesize src_stride segment
            copy_lines src dst lines bitmap = Undefined (WriteOutside d n) →
  d < 0.
Proof.
  induction copy_lines as [|copy_lines IH]; intros src dst lines bitmap d n Hend Hr.
  - cbn in Hr. discriminate.
  - destruct lines as [|lines]; [cbn in Hr; discriminate|].
    cbn [copy_rows] in Hr. unfold MV_ASSERT in Hr.
    destruct (Z.leb_spec (dst + linesize) dst_end); cbn in Hr; [|discriminate].
    rewrite size_t_small in Hr by assumption.
    destruct (memcpy bitmap dst segment src linesize) as [bitmap1| |u] eqn:Hm;
      cbn in Hr; try discriminate.
    + apply memcpy_Done in Hm as (Hl & _); [|lia].
      eapply IH; [|exact Hr]. lia.
    + injection Hr as ->. unfold memcpy in Hm.
      destruct (Z.leb_spec 0 dst), (Z.leb_spec (dst + linesize) (len bitmap));
        cbn in Hm; try lia; try (injection Hm as <- <-; lia).
      destruct ((0 <=? src) && (src + linesize <=? len segment)); discriminate.
Qed.

Lemma copy_segments_no_overrun segments : ∀ dst lines bitmap d n,
  dst_end <= len bitmap →
  copy_segments dst_end dst_stride linesize src_stride
                segments dst lines bitmap = Undefined (WriteOutside d n) →
  d < 0.
Proof.
  induction segments as [|segment segments IH]; intros dst lines bitmap d n Hend Hr.
  - destruct lines; discriminate.
  - destruct lines as [|lines]; [discriminate|].
    cbn [copy_segments] in Hr.
    destruct (src_stride =? 0); [discriminate|].
    destruct (copy_rows _ _ _ _ _ _ _ _ _ _) as [[[dst1 lines1] bitmap1]| |u] eqn:Hrows;
      cbn in Hr; try discriminate.
    + apply copy_rows_length in Hrows. eapply IH; [|exact Hr]. lia.
    + injection Hr as ->. eapply copy_rows_no_overrun; eassumption.
Qed.
End no_overrun.

(** X6. [RenderPartial] never writes past the end of the bitmap, whatever
    the partial: when the row length fits an [int], a write that leaves the
    bitmap of [screen_stride_ * screen_height_] bytes starts below it. The
    assertion stops every other one. *)
Theorem RenderPartial_no_overrun p e d n :
  len (screen_bitmap_ e) = uint (screen_stride_ e * screen_height_ e) →
  0 <= int (width p * (screen_bpp_ e ≫ 3)) →
  RenderPartial p e = Undefined (WriteOutside d n) →
  d < 0.
Proof.
  intros Hlen Hline Hr. unfold RenderPartial in Hr.
  assert (HL : 0 <= int (width p * screen_bpp_ e ≫ 3) < 2 ^ 64).
  { split; [assumption|]. unfold int.
    pose proof (Z.mod_pos_bound (width p * screen_bpp_ e ≫ 3 + 2 ^ 31) (2 ^ 32)). lia. }
  assert (Hend : 0 + uint (int (screen_stride_ e) * screen_height_ e)
                 <= len (screen_bitmap_ e)).
  { rewrite uint_int_mul, Hlen. lia. }
  destruct (flip p); eapply copy_segments_no_overrun; eassumption.
Qed.

Lemma RenderPartial_no_overrun_witness : -64 < 0.
Proof.
  apply (RenderPartial_no_overrun wrapping_partial screen_16x2 (-64) 4);
    [ vm_compute; reflexivity | vm_compute; congruence | vm_compute; reflexivity ].
Defined.

Section loops_abort.
Variables dst_end dst_stride linesize src_stride : Z.
Hypothesis linesize_range : 0 <= linesize < 2 ^ 64.

(** The loop aborts at the first row that ends past [dst_end], the rows
    before it being copied. *)
Lemma copy_rows_aborts segment : ∀ copy_lines src dst lines bitmap k,
  0 <= k < Z.of_nat (Nat.min copy_lines lines) →
  dst_end <= len bitmap →
  (∀ i, 0 <= i < k →
     0 <= dst + i * dst_stride ∧ dst + i * dst_stride + linesize <= dst_end) →
  (∀ i, 0 <= i < k →
     0 <= src + i * src_stride ∧ src + i * src_stride + linesize <= len segment) →
  dst_end < dst + k * dst_stride + linesize →
  copy_rows dst_end dst_stride linesize src_stride segment
            copy_lines src dst lines bitmap = Abort.
Proof.
  induction copy_lines as [|copy_lines IH];
    intros src dst lines bitmap k Hk Hend Hdst Hsrc Hover; [lia|].
  destruct lines as [|lines]; [lia|].
  cbn [copy_rows]. unfold MV_ASSERT.
  destruct (Z.eq_dec k 0) as [->|Hne].
  - destruct (Z.leb_spec (dst + linesize) dst_end); [lia|reflexivity].
  - pose proof (Hdst 0 ltac:(lia)) as Hd0. pose proof (Hsrc 0 ltac:(lia)) as Hs0.
    destruct (Z.leb_spec (dst + linesize) dst_end); [cbn|lia].
    rewrite size_t_small by assumption.
    destruct (memcpy_returns bitmap dst segment src linesize) as [bitmap1 Hm];
      try lia.
    rewrite Hm. cbn. apply memcpy_Done in Hm as (Hl & _); [|lia].
    apply (IH _ _ _ _ (k - 1)).
    + lia.
    + lia.
    + intros i Hi. specialize (Hdst (i + 1) ltac:(lia)). lia.
    + intros i Hi. specialize (Hsrc (i + 1) ltac:(lia)). lia.
    + lia.
Qed.

Hypothesis src_stride_range : 0 < src_stride.
Hypothesis row_fits : linesize <= src_stride.

Lemma copy_segments_aborts segments : ∀ dst lines bitmap k,
  0 <= k < Z.min (Z.of_nat lines) (rows_supplied src_stride segments) →
  dst_end <= len bitmap →
  (∀ i, 0 <= i < k →
     0 <= dst + i * dst_stride ∧ dst + i * dst_stride + linesize <= dst_end) →
  dst_end < dst + k * dst_stride + linesize →
  copy_segments dst_end dst_stride linesize src_stride
                segments dst lines bitmap = Abort.
Proof.
  induction segments as [|segment segments IH];
    intros dst lines bitmap k Hk Hend Hdst Hover; [cbn in Hk; lia|].
  rewrite rows_supplied_cons in Hk.
  destruct lines as [|lines]; [lia|].
  cbn [copy_segments]. destruct (Z.eqb_spec src_stride 0) as [|Hne]; [lia|].
  set (n := len segment / src_stride) in *.
  assert (Hn : 0 <= n ∧ n * src_stride <= len segment).
  { subst n. assert (0 <= len segment) by (unfold len; lia).
    Z.to_euclidean_division_equations. nia. }
  destruct (Z.lt_ge_cases k n) as [Hlt|Hge].
  - rewrite (copy_rows_aborts segment _ _ _ _ _ k); [reflexivity| | | | |]; try lia.
    + exact Hdst.
    + intros i Hi. nia.
  - destruct (copy_rows_returns dst_end dst_stride linesize src_stride
                linesize_range segment (Z.to_nat n) 0 dst (S lines) bitmap)
      as [[[dst1 lines1] bitmap1] Hrows].
    + exact Hend.
    + intros i Hi. apply Hdst. lia.
    + intros i Hi. nia.
    + rewrite Hrows. cbn.
      pose proof (copy_rows_length _ _ _ _ _ _ _ _ _ _ _ _ _ Hrows) as Hl.
      apply copy_rows_spec in Hrows as (Hdst1 & Hlines1 & _); [|assumption].
      replace (Z.of_nat (Nat.min (Z.to_nat n) (S lines))) with n in * by lia.
      apply (IH _ _ _ (k - n)).
      * lia.
      * lia.
      * intros i Hi.
        replace (dst1 + i * dst_stride) with (dst + (n + i) * dst_stride) by lia.
        apply Hdst. lia.
      * replace (dst1 + (k - n) * dst_stride) with (dst + k * dst_stride) by lia.
        exact Hover.
Qed.
End loops_abort.

(** X7. A partial that reaches below the last screen row is fatal. When its
    columns are on the screen, its rows are not empty, its source rows hold
    them, there are [height] of them, and the offset of the row after its
    last one, [screen_stride_ * (y + height)], is below [2^31] so that no
    offset wraps, [RenderPartial] ends in the abort of its assertion,
    flipped or not: it does not return, and no write outside the bitmap
    comes before the abort. *)
Theorem RenderPartial_below_screen_aborts p e :
  screen_geometry e →
  0 <= x p → 0 <= y p → x p + width p <= screen_width_ e →
  0 < height p → screen_height_ e < y p + height p →
  screen_stride_ e * (y p + height p) < 2 ^ 31 →
  0 < width p * bytes_per_pixel e <= stride p →
  height p <= rows_supplied (stride p) (vector p) →
  RenderPartial p e = Abort.
Proof.
  intros (Hw & Hh & HB & Hfit & Hss & Hsize & Hlen) Hx Hy Hxw Hph Hlow Hnowrap HL Hrows.
  unfold RenderPartial, bytes_per_pixel in *.
  set (B := screen_bpp_ e ≫ 3) in *. set (pitch := screen_stride_ e) in *.
  assert (0 < B ∧ 0 < width p) as [? ?] by nia.
  assert (0 <= x p * B ∧ x p * B + width p * B <= pitch) as [? ?] by nia.
  assert (0 <= pitch * y p
          ∧ pitch * (y p + height p - 1) + pitch <= pitch * (y p + height p))
    as [? ?] by nia.
  assert (0 <= pitch * screen_height_ e) by nia.
  rewrite (int_small pitch) by lia.
  rewrite (uint_small (pitch * screen_height_ e)) by lia.
  rewrite (int_small (width p * B)) by lia.
  assert (HLr : 0 <= width p * B < 2 ^ 64) by lia.
  assert (Hs : 0 < stride p) by lia.
  destruct (flip p).
  - rewrite int_small by lia. rewrite uint_small by nia.
    apply (copy_segments_aborts _ _ _ _ HLr Hs (proj2 HL) _ _ _ _ 0); try lia.
    nia.
  - rewrite uint_small by nia.
    apply (copy_segments_aborts _ _ _ _ HLr Hs (proj2 HL) _ _ _ _
             (Z.max 0 (screen_height_ e - y p))); try lia.
    + intros i Hi. nia.
    + nia.
Qed.

Lemma RenderPartial_below_screen_aborts_witness :
  Render [low_partial] screen_32x4 = Abort.
Proof.
  unfold Render; cbn [Render_partials].
  rewrite (RenderPartial_below_screen_aborts low_partial screen_32x4);
    [ reflexivity
    | unfold screen_geometry; repeat split; vm_compute; congruence
    | cbn; lia | cbn; lia | cbn; lia | cbn; lia | cbn; lia | cbn; lia
    | vm_compute; split; congruence | vm_compute; congruence ].
Defined.

(** ** The encoder thread, round by round *)

Lemma EncodeProcess_round_idle reply e :
  started_ e = false ∨ destroyed_ e = true → EncodeProcess_round reply e = e.
Proof.
  unfold EncodeProcess_round. intros [Hs|Hd].
  - rewrite Hs. destruct (destroyed_ e); reflexivity.
  - now rewrite Hd.
Qed.

Lemma EncodeProcess_idle replies e :
  started_ e = false ∨ destroyed_ e = true → EncodeProcess replies e = e.
Proof.
  intros H. induction replies as [|reply replies IH]; [reflexivity|].
  cbn. now rewrite EncodeProcess_round_idle.
Qed.

(** X8. After [Stop], and after the destructor has raised [destroyed_], the
    rounds of the encoder thread change nothing: no picture is submitted, no
    callback is called, the timestamp stands and the queued slices stay
    queued, however many rounds run. *)
Theorem EncodeProcess_stopped_or_destroyed replies e :
  EncodeProcess replies (Stop e) = Stop e
  ∧ EncodeProcess replies (SweetDisplayEncoder_delete e) = SweetDisplayEncoder_delete e.
Proof.
  split; apply EncodeProcess_idle; [left|right]; reflexivity.
Qed.

Lemma EncodeProcess_round_effects reply e :
  destroyed_ e = false → started_ e = true →
  let e' := EncodeProcess_round reply e in
  output_callback_ e' = output_callback_ e
  ∧ effects e'
    = effects e
      ++ x264_encoder_encode (if force_keyframe_ e then X264_TYPE_KEYFRAME
                              else X264_TYPE_AUTO)
                             (int64_t (i_pts (input_yuv_ e) + 1))
      :: match output_callback_ e with
         | Some cb => [output_callback cb (reply_nal reply) (reply_size reply)]
         | None => []
         end.
Proof.
  intros Hd Hs. cbv zeta. rewrite EncodeProcess_round_started by assumption.
  cbv zeta. rewrite !Encode_unfold.
  destruct (encode_slices_ e); destruct (output_callback_ e) eqn:Hcb; cbn;
    rewrite ?Hcb; (split; [reflexivity|]); rewrite <- ?app_assoc; reflexivity.
Qed.

Lemma EncodeProcess_effects replies : ∀ e cb type pts,
  destroyed_ e = false → started_ e = true →
  output_callback_ e = cb →
  (if force_keyframe_ e then X264_TYPE_KEYFRAME else X264_TYPE_AUTO) = type →
  i_pts (input_yuv_ e) = pts →
  - 2 ^ 63 <= pts → pts + len replies < 2 ^ 63 →
  effects (EncodeProcess replies e) = effects e ++ rounds_log cb type pts replies.
Proof.
  unfold len.
  induction replies as [|reply replies IH]; intros e cb type pts Hd Hs Hcb Ht Hp Hlo Hhi.
  - cbn. now rewrite app_nil_r.
  - cbn [length] in Hhi. cbn [EncodeProcess rounds_log].
    destruct (EncodeProcess_round_flags reply e) as (Hd1 & Hs1).
    rewrite Hd in Hd1. rewrite Hs in Hs1.
    pose proof (EncodeProcess_round_pts reply e Hd Hs) as Hp1.
    rewrite Hp, int64_t_small in Hp1 by lia.
    destruct (EncodeProcess_round_submits reply e Hd Hs) as (Hk & _).
    destruct (EncodeProcess_round_effects reply e Hd Hs) as (Hcb1 & Hlog).
    rewrite Hp, Ht, Hcb, int64_t_small in Hlog by lia.
    rewrite (IH _ cb X264_TYPE_AUTO (pts + 1)); auto; try lia.
    + rewrite Hlog, <- app_assoc. reflexivity.
    + congruence.
    + now rewrite Hk.
Qed.

(** X9. The log of a run of rounds of a started encoder: every round
    submits the picture once, with timestamps that go up by one from round
    to round, and then, if a callback is installed, calls it once with the
    NAL array and the size the codec returned in that round. Only the first
    submission is a keyframe, and only if [force_keyframe_] was set. *)
Theorem EncodeProcess_log replies e :
  destroyed_ e = false → started_ e = true →
  - 2 ^ 63 <= i_pts (input_yuv_ e) →
  i_pts (input_yuv_ e) + len replies < 2 ^ 63 →
  effects (EncodeProcess replies e)
  = effects e
    ++ rounds_log (output_callback_ e)
                  (if force_keyframe_ e then X264_TYPE_KEYFRAME else X264_TYPE_AUTO)
                  (i_pts (input_yuv_ e)) replies.
Proof.
  intros Hd Hs Hlo Hhi.
  apply EncodeProcess_effects; try assumption; reflexivity.
Qed.

Lemma EncodeProcess_log_witness :
  effects (EncodeProcess [one_nal; no_output] (Start 7%nat screen_32x4))
  = [x264_encoder_encode X264_TYPE_KEYFRAME 1;
     output_callback 7%nat ["000"; "000"; "001"]%byte 3;
     x264_encoder_encode X264_TYPE_AUTO 2;
     output_callback 7%nat [] (-1)].
Proof.
  apply (EncodeProcess_log [one_nal; no_output] (Start 7%nat screen_32x4));
    [reflexivity | reflexivity | cbn; lia | unfold len; cbn; lia].
Defined.

(** X10. After [Start], on a first start as after a [Stop], the rounds
    deliver to the callback just installed and to no other, and the first
    picture they submit is a keyframe. *)
Theorem Start_then_rounds (callback : OutputCallback) replies e :
  destroyed_ e = false →
  - 2 ^ 63 <= i_pts (input_yuv_ e) →
  i_pts (input_yuv_ e) + len replies < 2 ^ 63 →
  effects (EncodeProcess replies (Start callback e))
  = effects e
    ++ rounds_log (Some callback) X264_TYPE_KEYFRAME (i_pts (input_yuv_ e)) replies.
Proof.
  intros Hd Hlo Hhi.
  rewrite (EncodeProcess_effects replies (Start callback e) (Some callback)
             X264_TYPE_KEYFRAME (i_pts (input_yuv_ e)));
    try assumption; reflexivity.
Qed.

Lemma Start_then_rounds_witness :
  effects (EncodeProcess [one_nal]
             (Start 8%nat (Stop (EncodeProcess [one_nal] (Start 7%nat screen_32x4)))))
  = [x264_encoder_encode X264_TYPE_KEYFRAME 1;
     output_callback 7%nat ["000"; "000"; "001"]%byte 3;
     x264_encoder_encode X264_TYPE_KEYFRAME 2;
     output_callback 8%nat ["000"; "000"; "001"]%byte 3].
Proof.
  apply (Start_then_rounds 8%nat [one_nal]
           (Stop (EncodeProcess [one_nal] (Start 7%nat screen_32x4))));
    [reflexivity | vm_compute; congruence | vm_compute; congruence].
Defined.



(** On the screen, the arguments of the libyuv call are the slice's own
    and the source starts at the slice's first pixel. *)
Lemma convert_slice_source e s :
  even_screen e → screen_geometry e →
  screen_bpp_ e = 32 ∨ screen_bpp_ e = 24 →
  0 <= slice_x s → 0 <= slice_y s → 0 <= slice_width s → 0 < slice_height s →
  slice_x s + slice_width s <= screen_width_ e →
  slice_y s + slice_height s <= screen_height_ e →
  yuv (convert_slice e s)
  = (if screen_bpp_ e =? 32 then ARGBToI420 else RGB24ToI420)
      (drop (Z.to_nat (screen_stride_ e * slice_y s + slice_x s * bytes_per_pixel e))
            (screen_bitmap_ e))
      (screen_stride_ e) (slice_width s) (slice_height s).
Proof.
  intros (_ & _ & Hwr & Hhr) (Hw & Hh & HB & Hfit & Hss & Hsize & Hlen)
         Hbpp Hx Hy Hsw Hsh Hxw Hyh.
  unfold bytes_per_pixel in *.
  set (B := screen_bpp_ e ≫ 3) in *. set (pitch := screen_stride_ e) in *.
  assert (0 <= slice_x s * B ∧ (slice_x s + slice_width s) * B <= pitch) as [? ?] by nia.
  assert (0 <= pitch * slice_y s
          ∧ pitch * (slice_y s + slice_height s - 1) + pitch
            <= pitch * screen_height_ e) as [? ?] by nia.
  assert (0 <= (slice_height s - 1) * pitch) by nia.
  unfold convert_slice. fold pitch B.
  rewrite (uint_small (pitch * slice_y s)), (uint_small (slice_x s * B)) by nia.
  rewrite (int_small pitch), (int_small (slice_width s)),
    (int_small (slice_height s)) by lia.
  destruct Hbpp as [-> | ->]; reflexivity.
Qed.

(** X12. For a slice inside the screen, [ConvertSlices] hands libyuv a
    source that lies inside the bitmap: it starts at row [y], column [x] of
    the bitmap, and the [height] rows of [width] pixels that the routine
    reads at the screen stride end within it. The routine is the ARGB one
    at 32 bits per pixel and the RGB24 one at 24. *)
Theorem convert_slice_reads_inside e s :
  even_screen e → screen_geometry e →
  screen_bpp_ e = 32 ∨ screen_bpp_ e = 24 →
  0 <= slice_x s → 0 <= slice_y s → 0 <= slice_width s → 0 < slice_height s →
  slice_x s + slice_width s <= screen_width_ e →
  slice_y s + slice_height s <= screen_height_ e →
  ∃ src,
    yuv (convert_slice e s)
    = (if screen_bpp_ e =? 32 then ARGBToI420 else RGB24ToI420)
        src (screen_stride_ e) (slice_width s) (slice_height s)
    ∧ (∀ i, 0 <= i →
         byte_at src i
         = byte_at (screen_bitmap_ e)
                   (screen_stride_ e * slice_y s + slice_x s * bytes_per_pixel e + i))
    ∧ (slice_height s - 1) * screen_stride_ e + slice_width s * bytes_per_pixel e
      <= len src.
Proof.
  intros He Hg Hbpp Hx Hy Hsw Hsh Hxw Hyh.
  eexists. split; [apply convert_slice_source; assumption|].
  destruct Hg as (Hw & Hh & HB & Hfit & Hss & Hsize & Hlen).
  set (B := bytes_per_pixel e) in *. set (pitch := screen_stride_ e) in *.
  assert (0 <= slice_x s * B ∧ (slice_x s + slice_width s) * B <= pitch) as [? ?] by nia.
  assert (0 <= pitch * slice_y s
          ∧ pitch * (slice_y s + slice_height s - 1) + pitch
            <= pitch * screen_height_ e) as [? ?] by nia.
  set (off := pitch * slice_y s + slice_x s * B).
  assert (Hoff : 0 <= off ∧ off + (slice_height s - 1) * pitch + slice_width s * B
                               <= pitch * screen_height_ e) by (subst off; nia).
  clearbody off. split.
  - intros i Hi. unfold byte_at.
    destruct (Z.leb_spec 0 i), (Z.leb_spec 0 (off + i)); try lia.
    rewrite lookup_drop. f_equal. lia.
  - unfold len in *. rewrite length_drop. lia.
Qed.

Lemma convert_slice_reads_inside_witness :
  ∃ src,
    yuv (convert_slice screen_32x4 (expanded_slice screen_32x4 flipped_partial))
    = ARGBToI420 src 128 16 4
    ∧ (∀ i, 0 <= i → byte_at src i = byte_at (screen_bitmap_ screen_32x4) (0 + i))
    ∧ 3 * 128 + 16 * 4 <= len src.
Proof.
  apply (convert_slice_reads_inside screen_32x4
           (expanded_slice screen_32x4 flipped_partial));
    [ unfold even_screen; repeat split; vm_compute; congruence
    | unfold screen_geometry; repeat split; vm_compute; congruence
    | left; reflexivity
    | vm_compute; congruence | vm_compute; congruence | vm_compute; congruence
    | vm_compute; congruence | vm_compute; congruence | vm_compute; congruence ].
Defined.

(** ** DrawSlices on the planes *)

Section plane_rows.
Variables n to_stride from_stride : Z.
Variable src : list byte.
Hypothesis n_range : 0 <= n < 2 ^ 64.

(** After the loop: row [j] of the source lies at [to + j * to_stride], and
    no other byte changed. *)
Lemma copy_plane_rows_spec : ∀ rows to from dst dst',
  copy_plane_rows rows n to_stride from_stride to from dst src = Done dst' →
  len dst' = len dst
  ∧ (∀ pos,
       (∀ j, 0 <= j < Z.of_nat rows →
          ¬ (to + j * to_stride <= pos < to + j * to_stride + n)) →
       byte_at dst' pos = byte_at dst pos)
  ∧ (n <= Z.abs to_stride →
     ∀ j i, 0 <= j < Z.of_nat rows → 0 <= i < n →
       byte_at dst' (to + j * to_stride + i)
       = byte_at src (from + j * from_stride + i)).
Proof.
  induction rows as [|rows IH]; intros to from dst dst' Hr.
  - cbn in Hr. injection Hr as <-. repeat split; intros; lia.
  - cbn [copy_plane_rows] in Hr. rewrite size_t_small in Hr by assumption.
    destruct (memcpy dst to src from n) as [dst1| |] eqn:Hm; cbn in Hr;
      try discriminate.
    apply memcpy_Done in Hm as (Hl & _ & _ & Hcopy); [|lia].
    apply IH in Hr as (Hl' & Hframe & Hrows).
    split; [lia|]. split.
    + intros pos Hout. rewrite Hframe.
      * rewrite Hcopy. specialize (Hout 0 ltac:(lia)).
        destruct (Z.leb_spec to pos), (Z.ltb_spec pos (to + n));
          cbn; try reflexivity. lia.
      * intros j Hj. specialize (Hout (j + 1) ltac:(lia)). lia.
    + intros Hpitch j i Hj Hi. destruct (Z.eq_dec j 0) as [->|Hne].
      * rewrite Hframe.
        -- rewrite Hcopy.
           destruct (Z.leb_spec to (to + 0 * to_stride + i)),
                    (Z.ltb_spec (to + 0 * to_stride + i) (to + n));
             cbn; try lia. f_equal. lia.
        -- intros k Hk Hin.
           apply (rows_apart to_stride n 0 (k + 1) i); [assumption|lia|lia|lia].
      * specialize (Hrows Hpitch (j - 1) i ltac:(lia) Hi).
        replace (to + j * to_stride + i)
          with (to + to_stride + (j - 1) * to_stride + i) by lia.
        rewrite Hrows. f_equal. lia.
Qed.

Lemma copy_plane_rows_returns : ∀ rows to from dst,
  (∀ j, 0 <= j < Z.of_nat rows →
     0 <= to + j * to_stride ∧ to + j * to_stride + n <= len dst) →
  (∀ j, 0 <= j < Z.of_nat rows →
     0 <= from + j * from_stride ∧ from + j * from_stride + n <= len src) →
  ∃ dst', copy_plane_rows rows n to_stride from_stride to from dst src = Done dst'.
Proof.
  induction rows as [|rows IH]; intros to from dst Hto Hfrom; [cbn; eauto|].
  cbn [copy_plane_rows]. rewrite size_t_small by assumption.
  pose proof (Hto 0 ltac:(lia)). pose proof (Hfrom 0 ltac:(lia)).
  destruct (memcpy_returns dst to src from n) as [dst1 Hm]; try lia.
  rewrite Hm. cbn. apply memcpy_Done in Hm as (Hl & _); [|lia].
  apply IH.
  - intros j Hj. specialize (Hto (j + 1) ltac:(lia)). lia.
  - intros j Hj. specialize (Hfrom (j + 1) ltac:(lia)). lia.
Qed.
End plane_rows.

Lemma copy_plane_rows_length n to_stride from_stride src : ∀ rows to from dst dst',
  copy_plane_rows rows n to_stride from_stride to from dst src = Done dst' →
  len dst' = len dst.
Proof.
  induction rows as [|rows IH]; intros to from dst dst' Hr.
  - cbn in Hr. now injection Hr as <-.
  - cbn [copy_plane_rows] in Hr.
    destruct (memcpy dst to src from (size_t n)) as [dst1| |] eqn:Hm; cbn in Hr;
      try discriminate.
    apply memcpy_Done in Hm as (Hl & _); [|apply size_t_nonneg].
    rewrite <- Hl. eapply IH, Hr.
Qed.

(** One plane: a [w] x [h] block copied to column [px], row [py] of a plane
    that has [H] rows of [W] bytes. *)
Lemma plane_blit to_stride from_stride W H px py w h dst src :
  0 <= px → 0 <= py → 0 <= w → 0 <= h →
  px + w <= W → W <= to_stride < 2 ^ 31 → py + h <= H →
  to_stride * H <= len dst → len dst < 2 ^ 31 →
  w <= from_stride → from_stride * h <= len src →
  ∃ dst',
    copy_plane_rows (Z.to_nat h) w to_stride from_stride
                    (uint (to_stride * py) + px) 0 dst src = Done dst'
    ∧ (∀ pos,
         (∀ j, 0 <= j < h →
            ¬ (to_stride * (py + j) + px <= pos < to_stride * (py + j) + px + w)) →
         byte_at dst' pos = byte_at dst pos)
    ∧ (∀ j i, 0 <= j < h → 0 <= i < w →
         ∃ c, byte_at dst' (to_stride * (py + j) + px + i) = Some c
              ∧ byte_at src (from_stride * j + i) = Some c).
Proof.
  intros Hpx Hpy Hw Hh HW Hpitch HH Hlen Hsmall Hfrom Hsrc.
  assert (Hrows : ∀ j, 0 <= j < h →
            0 <= to_stride * (py + j)
            ∧ to_stride * (py + j) + to_stride <= to_stride * H) by (intros; nia).
  assert (Hfroms : ∀ j, 0 <= j < h →
            0 <= from_stride * j ∧ from_stride * j + from_stride <= from_stride * h)
    by (intros; nia).
  assert (Hn : 0 <= w < 2 ^ 64) by lia.
  assert (Hto : uint (to_stride * py) = to_stride * py).
  { apply uint_small. assert (0 <= to_stride * py <= to_stride * H) by nia. lia. }
  rewrite Hto.
  destruct (copy_plane_rows_returns w to_stride from_stride src Hn (Z.to_nat h)
              (to_stride * py + px) 0 dst) as [dst' Hr].
  - intros j Hj. specialize (Hrows j ltac:(lia)). lia.
  - intros j Hj. specialize (Hfroms j ltac:(lia)). lia.
  - exists dst'. split; [exact Hr|].
    apply copy_plane_rows_spec in Hr as (_ & Hframe & Hcontent); [|assumption].
    split.
    + intros pos Hout. apply Hframe. intros j Hj.
      replace (to_stride * py + px + j * to_stride)
        with (to_stride * (py + j) + px) by lia.
      apply Hout. lia.
    + intros j i Hj Hi. specialize (Hfroms j Hj).
      destruct (byte_at_Some src (from_stride * j + i) ltac:(lia)) as [c Hc].
      exists c. split; [|exact Hc].
      pose proof (Hcontent ltac:(lia) j i ltac:(lia) Hi) as Heq.
      replace (to_stride * py + px + j * to_stride + i)
        with (to_stride * (py + j) + px + i) in Heq by lia.
      replace (0 + j * from_stride + i) with (from_stride * j + i) in Heq by lia.
      congruence.
Qed.

Lemma shiftr_1_div z : z ≫ 1 = z / 2.
Proof. rewrite Z.shiftr_div_pow2 by lia. reflexivity. Qed.

Lemma draw_slice_layout dst s src dst' :
  draw_slice dst s src = Done dst' → same_layout dst dst'.
Proof.
  unfold draw_slice.
  destruct (copy_plane_rows _ _ _ _ _ _ (plane0 dst) _) as [p0| |] eqn:H0; cbn;
    try discriminate.
  destruct (copy_plane_rows _ _ _ _ _ _ (plane1 dst) _) as [p1| |] eqn:H1; cbn;
    try discriminate.
  destruct (copy_plane_rows _ _ _ _ _ _ (plane2 dst) _) as [p2| |] eqn:H2; cbn;
    try discriminate.
  intros [= <-]. unfold same_layout; cbn.
  apply copy_plane_rows_length in H0, H1, H2. auto 10.
Qed.

Lemma same_layout_holds a b w h :
  same_layout a b → image_holds a w h → image_holds b w h.
Proof.
  unfold same_layout, image_holds. intros (-> & -> & -> & -> & -> & ->). auto.
Qed.

(** What [draw_slice] does to the three planes when the slice is on the
    screen and both images have room. *)
Lemma draw_slice_spec sw sh dst s src :
  image_holds dst sw sh → slice_on_screen sw sh s →
  image_holds src (slice_width s) (slice_height s) →
  ∃ dst',
    draw_slice dst s src = Done dst'
    ∧ (∀ pos,
         (∀ j, 0 <= j < slice_height s →
            ¬ (i_stride0 dst * (slice_y s + j) + slice_x s <= pos
               < i_stride0 dst * (slice_y s + j) + slice_x s + slice_width s)) →
         byte_at (plane0 dst') pos = byte_at (plane0 dst) pos)
    ∧ (∀ j i, 0 <= j < slice_height s → 0 <= i < slice_width s →
         ∃ c, byte_at (plane0 dst')
                      (i_stride0 dst * (slice_y s + j) + slice_x s + i) = Some c
              ∧ byte_at (plane0 src) (i_stride0 src * j + i) = Some c)
    ∧ (∀ j i, 0 <= j < slice_height s / 2 → 0 <= i < slice_width s / 2 →
         ∃ c, byte_at (plane1 dst')
                      (i_stride1 dst * (slice_y s / 2 + j) + slice_x s / 2 + i) = Some c
              ∧ byte_at (plane1 src) (i_stride1 src * j + i) = Some c)
    ∧ (∀ j i, 0 <= j < slice_height s / 2 → 0 <= i < slice_width s / 2 →
         ∃ c, byte_at (plane2 dst')
                      (i_stride2 dst * (slice_y s / 2 + j) + slice_x s / 2 + i) = Some c
              ∧ byte_at (plane2 src) (i_stride2 src * j + i) = Some c).
Proof.
  intros ((Hd0 & Hdh & Hd0l & Hd0i & Hd0s) & (Hd1 & Hd1l & Hd1i & Hd1s)
          & (Hd2 & Hd2l & Hd2i & Hd2s))
         (Hx & Hy & Hw & Hh & Hxw & Hyh)
         ((Hs0 & _ & Hs0l & _) & (Hs1 & Hs1l & _) & (Hs2 & Hs2l & _)).
  rewrite !shiftr_1_div in *. unfold draw_slice. rewrite !shiftr_1_div.
  assert (Hhalf : 0 <= slice_x s / 2 ∧ 0 <= slice_y s / 2
                  ∧ 0 <= slice_width s / 2 ∧ 0 <= slice_height s / 2
                  ∧ slice_x s / 2 + slice_width s / 2 <= sw / 2
                  ∧ slice_y s / 2 + slice_height s / 2 <= sh / 2).
  { repeat split; Z.to_euclidean_division_equations; lia. }
  destruct Hhalf as (Hx2 & Hy2 & Hw2 & Hh2 & Hxw2 & Hyh2).
  destruct (plane_blit (i_stride0 dst) (i_stride0 src) sw sh
              (slice_x s) (slice_y s) (slice_width s) (slice_height s)
              (plane0 dst) (plane0 src)) as (p0 & -> & Hf0 & Hc0); try lia.
  destruct (plane_blit (i_stride1 dst) (i_stride1 src) (sw / 2) (sh / 2)
              (slice_x s / 2) (slice_y s / 2) (slice_width s / 2) (slice_height s / 2)
              (plane1 dst) (plane1 src)) as (p1 & -> & Hf1 & Hc1); try lia.
  destruct (plane_blit (i_stride2 dst) (i_stride2 src) (sw / 2) (sh / 2)
              (slice_x s / 2) (slice_y s / 2) (slice_width s / 2) (slice_height s / 2)
              (plane2 dst) (plane2 src)) as (p2 & -> & Hf2 & Hc2); try lia.
  cbn. eexists. split; [reflexivity|]. cbn. auto.
Qed.

Lemma same_layout_refl a : same_layout a a.
Proof. repeat split. Qed.

Lemma same_layout_trans a b c : same_layout a b → same_layout b c → same_layout a c.
Proof.
  unfold same_layout. intros (?&?&?&?&?&?) (?&?&?&?&?&?). repeat split; congruence.
Qed.

Lemma DrawSlices_planes_layout image_of slices : ∀ dst dst',
  DrawSlices_planes image_of slices dst = Done dst' → same_layout dst dst'.
Proof.
  induction slices as [|s slices IH]; intros dst dst' Hr.
  - cbn in Hr. injection Hr as <-. apply same_layout_refl.
  - cbn [DrawSlices_planes] in Hr.
    destruct (draw_slice dst s (image_of (yuv s))) as [dst1| |] eqn:Hd; cbn in Hr;
      try discriminate.
    eapply same_layout_trans; [eapply draw_slice_layout, Hd|eapply IH, Hr].
Qed.

Lemma DrawSlices_planes_app image_of before : ∀ after dst dst',
  DrawSlices_planes image_of (before ++ after) dst = Done dst' →
  ∃ dst1, DrawSlices_planes image_of before dst = Done dst1
          ∧ DrawSlices_planes image_of after dst1 = Done dst'.
Proof.
  induction before as [|s before IH]; intros after dst dst' Hr.
  - exists dst. auto.
  - cbn [app DrawSlices_planes] in *.
    destruct (draw_slice dst s (image_of (yuv s))) as [dst1| |]; cbn in *;
      try discriminate.
    apply IH in Hr. exact Hr.
Qed.

(** X13. When the picture has room for the screen and every slice is on the
    screen with a picture that has room for it, [DrawSlices] returns: none
    of its copies leaves a plane. The planes keep their sizes and pitches. *)
Theorem DrawSlices_planes_returns image_of sw sh slices : ∀ dst,
  image_holds dst sw sh → Forall (drawable image_of sw sh) slices →
  ∃ dst', DrawSlices_planes image_of slices dst = Done dst' ∧ same_layout dst dst'.
Proof.
  induction slices as [|s slices IH]; intros dst Hdst Hall.
  - exists dst. split; [reflexivity|apply same_layout_refl].
  - apply Forall_cons in Hall as [[Hon Hsrc] Hall]. cbn [DrawSlices_planes].
    destruct (draw_slice_spec sw sh dst s (image_of (yuv s)) Hdst Hon Hsrc)
      as (dst1 & Hd & _).
    rewrite Hd. cbn. pose proof (draw_slice_layout _ _ _ _ Hd) as Hl.
    destruct (IH dst1 (same_layout_holds _ _ _ _ Hl Hdst) Hall) as (dst' & Hr & Hl').
    exists dst'. split; [exact Hr|]. eapply same_layout_trans; eassumption.
Qed.

Lemma DrawSlices_planes_returns_witness :
  ∃ dst', DrawSlices_planes (λ _, tile_2x2) [slice_2x2; slice_2x2] picture_4x2 = Done dst'
          ∧ same_layout picture_4x2 dst'.
Proof.
  apply (DrawSlices_planes_returns (λ _, tile_2x2) 4 2 [slice_2x2; slice_2x2] picture_4x2).
  - unfold image_holds. repeat split; vm_compute; congruence.
  - repeat constructor; vm_compute; congruence.
Defined.

(** X14. After [DrawSlices], the Y block of the slice drawn last is in the
    Y plane of the picture at the slice's position: row [j], column [i] of
    the slice's Y plane is at row [y + j], column [x + i]. *)
Theorem DrawSlices_planes_luma image_of sw sh before s dst dst' j i :
  image_holds dst sw sh → drawable image_of sw sh s →
  DrawSlices_planes image_of (before ++ [s]) dst = Done dst' →
  0 <= j < slice_height s → 0 <= i < slice_width s →
  ∃ c, byte_at (plane0 dst') (i_stride0 dst * (slice_y s + j) + slice_x s + i) = Some c
       ∧ byte_at (plane0 (image_of (yuv s))) (i_stride0 (image_of (yuv s)) * j + i)
         = Some c.
Proof.
  intros Hdst [Hon Hsrc] Hr Hj Hi.
  apply DrawSlices_planes_app in Hr as (dst1 & Hbefore & Hr).
  apply DrawSlices_planes_layout in Hbefore as Hl.
  destruct (draw_slice_spec sw sh dst1 s (image_of (yuv s))
              (same_layout_holds _ _ _ _ Hl Hdst) Hon Hsrc)
    as (dst2 & Hd & _ & Hluma & _).
  cbn [DrawSlices_planes] in Hr. rewrite Hd in Hr. cbn in Hr. injection Hr as <-.
  destruct Hl as (<- & _). apply Hluma; assumption.
Qed.

Lemma DrawSlices_planes_luma_witness :
  ∃ c, byte_at (plane0 (image_after (DrawSlices_planes (λ _, tile_2x2) [slice_2x2]
                                                       picture_4x2) picture_4x2))
               (4 * (0 + 1) + 2 + 1) = Some c
       ∧ byte_at (plane0 tile_2x2) (2 * 1 + 1) = Some c.
Proof.
  apply (DrawSlices_planes_luma (λ _, tile_2x2) 4 2 [] slice_2x2 picture_4x2)
    with (j := 1) (i := 1).
  - unfold image_holds. repeat split; vm_compute; congruence.
  - unfold drawable, slice_on_screen, image_holds. repeat split; vm_compute; congruence.
  - vm_compute. reflexivity.
  - vm_compute. split; congruence.
  - vm_compute. split; congruence.
Defined.

(** X15. After [DrawSlices], the U and V blocks of the slice drawn last are
    in the U and V planes of the picture at half the slice's position: row
    [j], column [i] of the slice's plane is at row [y / 2 + j], column
    [x / 2 + i], for the [height / 2] rows of [width / 2] bytes. *)
Theorem DrawSlices_planes_chroma image_of sw sh before s dst dst' j i :
  image_holds dst sw sh → drawable image_of sw sh s →
  DrawSlices_planes image_of (before ++ [s]) dst = Done dst' →
  0 <= j < slice_height s / 2 → 0 <= i < slice_width s / 2 →
  (∃ c, byte_at (plane1 dst')
                (i_stride1 dst * (slice_y s / 2 + j) + slice_x s / 2 + i) = Some c
        ∧ byte_at (plane1 (image_of (yuv s))) (i_stride1 (image_of (yuv s)) * j + i)
          = Some c)
  ∧ (∃ c, byte_at (plane2 dst')
                  (i_stride2 dst * (slice_y s / 2 + j) + slice_x s / 2 + i) = Some c
          ∧ byte_at (plane2 (image_of (yuv s))) (i_stride2 (image_of (yuv s)) * j + i)
            = Some c).
Proof.
  intros Hdst [Hon Hsrc] Hr Hj Hi.
  apply DrawSlices_planes_app in Hr as (dst1 & Hbefore & Hr).
  apply DrawSlices_planes_layout in Hbefore as Hl.
  destruct (draw_slice_spec sw sh dst1 s (image_of (yuv s))
              (same_layout_holds _ _ _ _ Hl Hdst) Hon Hsrc)
    as (dst2 & Hd & _ & _ & Hu & Hv).
  cbn [DrawSlices_planes] in Hr. rewrite Hd in Hr. cbn in Hr. injection Hr as <-.
  destruct Hl as (_ & <- & <- & _). split; [apply Hu|apply Hv]; assumption.
Qed.

Lemma DrawSlices_planes_chroma_witness :
  (∃ c, byte_at (plane1 (image_after (DrawSlices_planes (λ _, tile_2x2) [slice_2x2]
                                                        picture_4x2) picture_4x2))
                (2 * (0 / 2 + 0) + 2 / 2 + 0) = Some c
        ∧ byte_at (plane1 tile_2x2) (1 * 0 + 0) = Some c)
  ∧ (∃ c, byte_at (plane2 (image_after (DrawSlices_planes (λ _, tile_2x2) [slice_2x2]
                                                          picture_4x2) picture_4x2))
                  (2 * (0 / 2 + 0) + 2 / 2 + 0) = Some c
          ∧ byte_at (plane2 tile_2x2) (1 * 0 + 0) = Some c).
Proof.
  apply (DrawSlices_planes_chroma (λ _, tile_2x2) 4 2 [] slice_2x2 picture_4x2)
    with (j := 0) (i := 0).
  - unfold image_holds. repeat split; vm_compute; congruence.
  - unfold drawable, slice_on_screen, image_holds. repeat split; vm_compute; congruence.
  - vm_compute. reflexivity.
  - vm_compute. split; congruence.
  - vm_compute. split; congruence.
Defined.

Lemma in_luma_cons pitch s slices pos :
  in_luma pitch (s :: slices) pos ↔
  (∃ j, 0 <= j < slice_height s
        ∧ pitch * (slice_y s + j) + slice_x s <= pos
          < pitch * (slice_y s + j) + slice_x s + slice_width s)
  ∨ in_luma pitch slices pos.
Proof. unfold in_luma. apply Exists_cons. Qed.

(** X16. [DrawSlices] changes no byte of the Y plane outside the Y blocks
    of its slices. *)
Theorem DrawSlices_planes_luma_frame image_of sw sh slices : ∀ dst dst' pos,
  image_holds dst sw sh → Forall (drawable image_of sw sh) slices →
  DrawSlices_planes image_of slices dst = Done dst' →
  ¬ in_luma (i_stride0 dst) slices pos →
  byte_at (plane0 dst') pos = byte_at (plane0 dst) pos.
Proof.
  induction slices as [|s slices IH]; intros dst dst' pos Hdst Hall Hr Hout.
  - cbn in Hr. now injection Hr as <-.
  - apply Forall_cons in Hall as [[Hon Hsrc] Hall]. cbn [DrawSlices_planes] in Hr.
    destruct (draw_slice_spec sw sh dst s (image_of (yuv s)) Hdst Hon Hsrc)
      as (dst1 & Hd & Hframe & _).
    rewrite Hd in Hr. cbn in Hr.
    pose proof (draw_slice_layout _ _ _ _ Hd) as Hl.
    rewrite in_luma_cons in Hout.
    rewrite (IH dst1 dst' pos (same_layout_holds _ _ _ _ Hl Hdst) Hall Hr).
    + apply Hframe. intros j Hj Hin. apply Hout. left. eauto.
    + destruct Hl as (-> & _). tauto.
Qed.

Lemma DrawSlices_planes_luma_frame_witness :
  byte_at (plane0 (image_after (DrawSlices_planes (λ _, tile_2x2) [slice_2x2]
                                                  picture_4x2) picture_4x2)) 1
  = byte_at (plane0 picture_4x2) 1.
Proof.
  apply (DrawSlices_planes_luma_frame (λ _, tile_2x2) 4 2 [slice_2x2]).
  - unfold image_holds. repeat split; vm_compute; congruence.
  - repeat constructor; vm_compute; congruence.
  - vm_compute. reflexivity.
  - unfold in_luma. rewrite Exists_cons, Exists_nil. cbn.
    intros [(j & Hj & Hin)|[]]. lia.
Defined.

(** ** The slice of a partial, and the screen through a session *)

(** X17. The slice queued for an in-bounds partial covers the partial: no
    pixel that [Render] wrote is left out of the region to encode. The slice
    reaches less than 16 columns to the left and to the right of the partial
    and less than 2 rows above and below it. *)
Theorem slice_covers_partial e p :
  even_screen e → in_bounds e p = true →
  ∃ s,
    encode_slices_ (CreateEncodeSlice (y p) (x p) (uint (y p + height p))
                                      (uint (x p + width p)) e)
    = encode_slices_ e ++ [s]
    ∧ (x p - 16 < slice_x s <= x p
       ∧ x p + width p <= slice_x s + slice_width s < x p + width p + 16)
    ∧ (y p - 2 < slice_y s <= y p
       ∧ y p + height p <= slice_y s + slice_height s < y p + height p + 2).
Proof.
  intros He Hb. exists (expanded_slice e p).
  rewrite CreateEncodeSlice_in_bounds by assumption.
  split; [reflexivity|].
  destruct He as (_ & _ & Hwr & Hhr).
  apply in_bounds_spec in Hb as (?&?&?&?&?&?).
  unfold expanded_slice, align_rectangle; cbn.
  repeat split; Z.to_euclidean_division_equations; lia.
Qed.

Lemma slice_covers_partial_witness :
  ∃ s,
    encode_slices_ (CreateEncodeSlice 1 2 3 4 screen_32x4) = [s]
    ∧ (2 - 16 < slice_x s <= 2 ∧ 2 + 2 <= slice_x s + slice_width s < 2 + 2 + 16)
    ∧ (1 - 2 < slice_y s <= 1 ∧ 1 + 2 <= slice_y s + slice_height s < 1 + 2 + 2).
Proof.
  apply (slice_covers_partial screen_32x4 flipped_partial);
    [unfold even_screen; cbn; repeat split; lia | reflexivity].
Defined.

Lemma perform_same_screen c e e' : perform c e = Done e' → same_screen e e'.
Proof.
  destruct c as [cb| |partials| |reply]; cbn; intros Hr.
  - injection Hr as <-. repeat split.
  - injection Hr as <-. repeat split.
  - unfold Render in Hr.
    destruct (Render_partials partials e) as [e1| |] eqn:Hrun; try discriminate.
    cbn in Hr. injection Hr as <-.
    apply Render_partials_screen in Hrun.
    destruct (encode_slices_ e1); exact Hrun.
  - injection Hr as <-. repeat split.
  - injection Hr as <-.
    destruct (EncodeProcess_round_queue reply e) as (Hw & Hh & _).
    unfold EncodeProcess_round in *. rewrite !Encode_unfold in *.
    destruct (destroyed_ e); [repeat split|].
    destruct (started_ e); [|repeat split].
    destruct (encode_slices_ e); cbn; destruct (output_callback_ e); repeat split.
Qed.

(** X18. The screen is fixed for the session: whatever [Start], [Stop],
    [Render], [ForceKeyframe] and the encoder thread do, in whatever order,
    the width, the height, the depth and the stride stay as constructed and
    the bitmap keeps its length. *)
Theorem run_same_screen calls : ∀ e e',
  run calls e = Done e' → same_screen e e'.
Proof.
  induction calls as [|c calls IH]; intros e e' Hr; cbn in Hr.
  - injection Hr as <-. apply same_screen_refl.
  - destruct (perform c e) as [e1| |] eqn:Hp; try discriminate. cbn in Hr.
    eapply same_screen_trans; [eapply perform_same_screen, Hp|eapply IH, Hr].
Qed.

Lemma run_same_screen_witness :
  same_screen screen_32x4
    (state_after (run [call_Start 7%nat; call_Render [flipped_partial];
                       worker_round one_nal; call_Stop] screen_32x4) screen_32x4).
Proof.
  apply (run_same_screen [call_Start 7%nat; call_Render [flipped_partial];
                          worker_round one_nal; call_Stop] screen_32x4).
  vm_compute. reflexivity.
Defined.

(** ** The blit in closed form *)

Lemma byte_at_of_nat (l : list byte) i : byte_at l (Z.of_nat i) = l !! i.
Proof.
  unfold byte_at. destruct (Z.leb_spec 0 (Z.of_nat i)); [|lia].
  now rewrite Nat2Z.id.
Qed.

Lemma blit_source_spec pitch B p pos c :
  blit_source pitch B p pos = Some c ↔
  ∃ r, 0 <= r < Z.min (height p) (rows_supplied (stride p) (vector p))
       ∧ pos / pitch = screen_row p r
       ∧ x p * B <= pos mod pitch < (x p + width p) * B
       ∧ byte_at (concat (vector p)) (r * stride p + (pos mod pitch - x p * B)) = Some c.
Proof.
  unfold blit_source, screen_row. cbv zeta.
  set (m := Z.min (height p) (rows_supplied (stride p) (vector p))).
  split.
  - destruct (flip p).
    + destruct (Z.leb_spec 0 (y p + height p - 1 - pos / pitch)),
               (Z.ltb_spec (y p + height p - 1 - pos / pitch) m),
               (Z.leb_spec (x p * B) (pos mod pitch)),
               (Z.ltb_spec (pos mod pitch) ((x p + width p) * B));
        cbn; try discriminate.
      intros Hc. exists (y p + height p - 1 - pos / pitch).
      repeat split; try lia. exact Hc.
    + destruct (Z.leb_spec 0 (pos / pitch - y p)),
               (Z.ltb_spec (pos / pitch - y p) m),
               (Z.leb_spec (x p * B) (pos mod pitch)),
               (Z.ltb_spec (pos mod pitch) ((x p + width p) * B));
        cbn; try discriminate.
      intros Hc. exists (pos / pitch - y p).
      repeat split; try lia. exact Hc.
  - intros (r & Hr & Hrow & Hcol & Hc).
    assert (Hr' : (if flip p then y p + height p - 1 - pos / pitch
                   else pos / pitch - y p) = r) by (destruct (flip p); lia).
    rewrite Hr'.
    destruct (Z.leb_spec 0 r), (Z.ltb_spec r m),
             (Z.leb_spec (x p * B) (pos mod pitch)),
             (Z.ltb_spec (pos mod pitch) ((x p + width p) * B)); try lia.
    exact Hc.
Qed.

(** [RenderPartial] computes [blit]. *)
Lemma RenderPartial_blit p e :
  screen_geometry e → well_formed e p = true → whole_rows p = true →
  RenderPartial p e
  = Done (blit (screen_stride_ e) (bytes_per_pixel e) p (screen_bitmap_ e)).
Proof.
  intros Hg Hwf Hwhole.
  destruct (RenderPartial_returns p e Hg Hwf) as [bitmap' Hr].
  rewrite Hr. f_equal.
  pose proof (RenderPartial_length _ _ _ Hr) as Hlen'.
  apply well_formed_spec in Hwf as (Hb & Hs & Hfit).
  apply list_eq. intros i. unfold blit. rewrite list_lookup_imap.
  destruct (screen_bitmap_ e !! i) as [b|] eqn:Hi; cbn.
  2:{ apply lookup_ge_None. apply lookup_ge_None in Hi. unfold len in Hlen'. lia. }
  rewrite <- (byte_at_of_nat bitmap'). set (pos := Z.of_nat i).
  assert (Hold : byte_at (screen_bitmap_ e) pos = Some b)
    by (unfold pos; now rewrite byte_at_of_nat).
  destruct (Z.le_gt_cases (height p) 0) as [Hz|Hpos].
  { rewrite RenderPartial_no_rows in Hr by assumption. injection Hr as <-.
    destruct (blit_source _ _ p pos) as [c|] eqn:Hc; [|exact Hold].
    apply blit_source_spec in Hc as (r & Hr & _). lia. }
  rewrite RenderPartial_in_bounds in Hr by assumption.
  destruct Hg as (Hw & Hh & HB & Hrow & Hss & Hsize & Hlen).
  apply in_bounds_spec in Hb as (Hx & Hy & Hpw & Hph & Hxw & Hyh).
  set (B := bytes_per_pixel e) in *. set (pitch := screen_stride_ e) in *.
  assert (HL : 0 <= width p * B < 2 ^ 64) by nia.
  assert (0 <= x p * B ∧ (x p + width p) * B <= pitch) as [HxB HxwB] by nia.
  apply (copy_segments_spec _ _ _ _ HL (Z.lt_le_incl _ _ Hs)) in Hr as (Hframe & Hcontent).
  rewrite Z2Nat.id in Hframe, Hcontent by lia.
  set (m := Z.min (height p) (rows_supplied (stride p) (vector p))) in *.
  assert (Hpitch : width p * B <= Z.abs (if flip p then - pitch else pitch))
    by (destruct (flip p); nia).
  assert (Hseg : Forall (λ segment, len segment mod stride p = 0) (vector p)).
  { apply Forall_forall. intros segment Hin. unfold whole_rows in Hwhole.
    rewrite forallb_forall in Hwhole. apply Z.eqb_eq, Hwhole.
    now apply list_elem_of_In. }
  assert (Hdst : ∀ r, pitch * screen_row p 0 + x p * B
                      + r * (if flip p then - pitch else pitch)
                      = pitch * screen_row p r + x p * B).
  { intros r. unfold screen_row. destruct (flip p); lia. }
  destruct (blit_source pitch B p pos) as [c|] eqn:Hc; cbn.
  - apply blit_source_spec in Hc as (r & Hr & Hrow' & Hcol & Hc).
    assert (pitch ≠ 0) by lia.
    destruct (Hcontent Hpitch Hseg r (pos mod pitch - x p * B) Hr ltac:(lia))
      as (c' & Hc1 & Hc2).
    rewrite Hdst, <- Hrow' in Hc1.
    replace (pitch * (pos / pitch) + x p * B + (pos mod pitch - x p * B))
      with pos in Hc1 by (pose proof (Z.div_mod pos pitch ltac:(lia)); lia).
    congruence.
  - rewrite Hframe; [exact Hold|].
    intros r Hr Hin. rewrite Hdst in Hin.
    assert (0 < pitch) by lia.
    assert (Hrow' : pos / pitch = screen_row p r).
    { symmetry. apply (Z.div_unique_pos pos pitch _ (pos - pitch * screen_row p r)); lia. }
    assert (Hcol : pos mod pitch = pos - pitch * screen_row p r).
    { pose proof (Z.div_mod pos pitch ltac:(lia)). rewrite Hrow' in *. lia. }
    destruct (Hcontent Hpitch Hseg r (pos mod pitch - x p * B) Hr ltac:(lia))
      as (c' & _ & Hc2).
    assert (Hsome : blit_source pitch B p pos = Some c').
    { apply blit_source_spec. exists r. repeat split; try lia. exact Hc2. }
    congruence.
Qed.

Lemma Render_partials_blits partials : ∀ e,
  screen_geometry e →
  forallb (λ p, well_formed e p && whole_rows p) partials = true →
  ∃ e', Render_partials partials e = Done e'
        ∧ screen_bitmap_ e'
          = foldl (λ bitmap p, blit (screen_stride_ e) (bytes_per_pixel e) p bitmap)
                  (screen_bitmap_ e) partials.
Proof.
  induction partials as [|p partials IH]; intros e Hg Hall.
  - exists e. split; reflexivity.
  - cbn in Hall. apply andb_prop in Hall as [Hp Hall].
    apply andb_prop in Hp as [Hwf Hwhole].
    cbn [Render_partials foldl]. rewrite (RenderPartial_blit p e Hg Hwf Hwhole). cbn.
    set (bitmap1 := blit (screen_stride_ e) (bytes_per_pixel e) p (screen_bitmap_ e)).
    match goal with
    | |- ∃ e', Render_partials _ ?e1 = _ ∧ _ => assert (Hsame : same_screen e e1)
    end.
    { assert (len bitmap1 = len (screen_bitmap_ e))
        by (unfold bitmap1, blit, len; now rewrite length_imap).
      destruct (started_ e); repeat split; assumption. }
    match goal with
    | |- ∃ e', Render_partials _ ?e1 = _ ∧ _ =>
        destruct (IH e1) as (e' & Hr & Hbm)
    end.
    + eapply same_screen_geometry; eassumption.
    + rewrite forallb_forall in Hall |- *. intros q Hq.
      rewrite (same_screen_well_formed e) by assumption. now apply Hall.
    + exists e'. split; [exact Hr|]. rewrite Hbm.
      destruct (started_ e); reflexivity.
Qed.

(** X19. On the screen of a constructed encoder, [Render] of well-formed
    partials with whole-row segments returns, and the bitmap it leaves is
    the one obtained by putting the partials in place one after the other
    in list order: each partial's supplied rows land in its rectangle,
    bottom-up when [flip] is set, and later partials go on top of earlier
    ones. *)
Theorem Render_is_blits partials e :
  screen_geometry e →
  forallb (λ p, well_formed e p && whole_rows p) partials = true →
  ∃ e', Render partials e = Done e'
        ∧ screen_bitmap_ e'
          = foldl (λ bitmap p, blit (screen_stride_ e) (bytes_per_pixel e) p bitmap)
                  (screen_bitmap_ e) partials.
Proof.
  intros Hg Hall.
  destruct (Render_partials_blits partials e Hg Hall) as (e1 & Hr & Hbm).
  unfold Render. rewrite Hr. cbn. eexists. split; [reflexivity|].
  rewrite <- Hbm. destruct (encode_slices_ e1); reflexivity.
Qed.

Lemma Render_is_blits_witness :
  ∃ e', Render [white_pixel; flipped_partial; dark_pixel] screen_32x4 = Done e'
        ∧ screen_bitmap_ e'
          = blit 128 4 dark_pixel
              (blit 128 4 flipped_partial
                 (blit 128 4 white_pixel (screen_bitmap_ screen_32x4))).
Proof.
  apply (Render_is_blits [white_pixel; flipped_partial; dark_pixel] screen_32x4);
    [unfold screen_geometry; repeat split; vm_compute; congruence | reflexivity].
Defined.

Lemma rows_supplied_whole src_stride segments :
  0 < src_stride →
  Forall (λ segment, len segment mod src_stride = 0) segments →
  rows_supplied src_stride segments = len (concat segments) / src_stride
  ∧ len (concat segments) mod src_stride = 0.
Proof.
  intros Hs. induction 1 as [|segment segments Hseg _ [IH1 IH2]].
  - cbn. rewrite Z.div_0_l, Z.mod_0_l by lia. auto.
  - rewrite rows_supplied_cons. cbn [concat]. unfold len in *.
    rewrite length_app, Nat2Z.inj_add.
    apply Z.mod_divide in Hseg as [a Ha]; [|lia].
    apply Z.mod_divide in IH2 as [b Hb]; [|lia].
    rewrite IH1, Ha, Hb.
    rewrite <- Z.mul_add_distr_r, !Z.div_mul, Z.mod_mul by lia. auto.
Qed.

Lemma whole_rows_spec p :
  whole_rows p = true ↔ Forall (λ segment, len segment mod stride p = 0) (vector p).
Proof.
  unfold whole_rows. rewrite forallb_forall, Forall_forall.
  split; intros H segment Hin.
  - apply Z.eqb_eq, H. now apply list_elem_of_In.
  - apply Z.eqb_eq, H. now apply list_elem_of_In.
Qed.

(** X20. Where the segments are cut does not matter: for a well-formed
    partial whose segments are whole source rows, [RenderPartial] gives the
    same bitmap as for the same partial with its segments joined into one. *)
Theorem RenderPartial_segments_joined p e :
  screen_geometry e → well_formed e p = true → whole_rows p = true →
  RenderPartial (one_segment p) e = RenderPartial p e.
Proof.
  intros Hg Hwf Hwhole.
  pose proof Hwf as (Hb & Hs & Hfit)%well_formed_spec.
  pose proof Hwhole as Hseg%whole_rows_spec.
  destruct (rows_supplied_whole _ _ Hs Hseg) as (Hrows & Hmod).
  assert (Hwhole1 : whole_rows (one_segment p) = true).
  { unfold whole_rows, one_segment; cbn. rewrite Hmod. reflexivity. }
  rewrite (RenderPartial_blit p e Hg Hwf Hwhole).
  rewrite (RenderPartial_blit (one_segment p) e Hg Hwf Hwhole1).
  f_equal. unfold blit. apply imap_ext. intros i b _. cbn.
  f_equal. unfold blit_source, one_segment; cbn.
  rewrite app_nil_r, Hrows, Z.add_0_r. reflexivity.
Qed.

Lemma RenderPartial_segments_joined_witness :
  RenderPartial (one_segment split_partial) screen_32x4
  = RenderPartial split_partial screen_32x4.
Proof.
  apply (RenderPartial_segments_joined split_partial screen_32x4);
    [unfold screen_geometry; repeat split; vm_compute; congruence
    | reflexivity | reflexivity].
Defined.

(** X21. Rendering a partial again changes nothing: on the bitmap that
    [RenderPartial] left for a well-formed partial with whole-row segments,
    [RenderPartial] of the same partial returns that bitmap. *)
Theorem RenderPartial_twice p e bitmap' :
  screen_geometry e → well_formed e p = true → whole_rows p = true →
  RenderPartial p e = Done bitmap' →
  RenderPartial p (with_bitmap bitmap' e) = Done bitmap'.
Proof.
  intros Hg Hwf Hwhole Hr.
  assert (Hsame : same_screen e (with_bitmap bitmap' e)).
  { repeat split. apply (RenderPartial_length _ _ _ Hr). }
  rewrite RenderPartial_blit.
  - rewrite (RenderPartial_blit p e Hg Hwf Hwhole) in Hr. injection Hr as <-.
    f_equal. cbn. apply list_eq. intros i. unfold blit.
    rewrite !list_lookup_imap.
    destruct (screen_bitmap_ e !! i) as [b|]; cbn; [|reflexivity].
    destruct (blit_source _ _ p (Z.of_nat i)); reflexivity.
  - eapply same_screen_geometry; eassumption.
  - now rewrite (same_screen_well_formed e).
  - exact Hwhole.
Qed.

Lemma RenderPartial_twice_witness :
  let bitmap' := blit 128 4 flipped_partial (screen_bitmap_ screen_32x4) in
  RenderPartial flipped_partial (with_bitmap bitmap' screen_32x4) = Done bitmap'.
Proof.
  apply (RenderPartial_twice flipped_partial screen_32x4);
    [unfold screen_geometry; repeat split; vm_compute; congruence
    | reflexivity | reflexivity | vm_compute; reflexivity].
Defined.

(** ** From Render to the converter *)

Lemma expanded_slice_covers e p :
  even_screen e → in_bounds e p = true →
  let s := expanded_slice e p in
  (0 <= slice_x s <= x p ∧ x p + width p <= slice_x s + slice_width s)
  ∧ (0 <= slice_y s <= y p ∧ y p + height p <= slice_y s + slice_height s)
  ∧ slice_x s + slice_width s <= screen_width_ e
  ∧ slice_y s + slice_height s <= screen_height_ e.
Proof.
  intros (_ & _ & Hwr & Hhr) Hb. apply in_bounds_spec in Hb as (?&?&?&?&?&?).
  unfold expanded_slice, align_rectangle; cbn.
  repeat split; Z.to_euclidean_division_equations; lia.
Qed.

(** X22. What [Render] writes is what the next round converts. On a started
    encoder of 32 or 24 bits per pixel, after [Render] of one in-bounds
    partial with whole-row segments that hold its rows, the round of the
    encoder thread stitches, last, a slice converted from a source in which
    every byte [k] of every pixel [(u, r)] of the partial is found, at the
    pixel's place relative to the origin of the slice. *)
Theorem rendered_pixels_reach_converter reply p e e1 r u k :
  even_screen e → screen_geometry e →
  screen_bpp_ e = 32 ∨ screen_bpp_ e = 24 →
  destroyed_ e = false → started_ e = true →
  in_bounds e p = true → whole_rows p = true →
  height p <= rows_supplied (stride p) (vector p) →
  Render [p] e = Done e1 →
  0 <= r < height p → 0 <= u < width p → 0 <= k < bytes_per_pixel e →
  ∃ s src c,
    img (input_yuv_ (EncodeProcess_round reply e1))
    = img (input_yuv_ e) ++ (convert_slice e1 <$> encode_slices_ e) ++ [s]
    ∧ yuv s = (if screen_bpp_ e =? 32 then ARGBToI420 else RGB24ToI420)
                src (screen_stride_ e) (slice_width s) (slice_height s)
    ∧ byte_at src (screen_stride_ e * (screen_row p r - slice_y s)
                   + (x p + u - slice_x s) * bytes_per_pixel e + k) = Some c
    ∧ byte_at (concat (vector p)) (r * stride p + u * bytes_per_pixel e + k) = Some c.
Proof.
  intros He Hg Hbpp Hd Hs Hb Hwhole Hrows Hrender Hr Hu Hk.
  (* the state Render leaves *)
  unfold Render in Hrender. cbn [Render_partials] in Hrender.
  destruct (RenderPartial p e) as [bitmap| |] eqn:Hblit; cbn in Hrender;
    try discriminate.
  rewrite Hs in Hrender.
  rewrite (CreateEncodeSlice_in_bounds (with_bitmap bitmap e) p He Hb) in Hrender.
  cbn in Hrender.
  change (expanded_slice (with_bitmap bitmap e) p) with (expanded_slice e p) in Hrender.
  destruct (encode_slices_ e ++ [expanded_slice e p]) as [|s0 q0] eqn:Hq;
    [destruct (encode_slices_ e); discriminate|].
  injection Hrender as <-.
  (* the round *)
  rewrite EncodeProcess_round_started; [|exact Hd|exact Hs]. cbv zeta.
  rewrite !Encode_unfold.
  set (e1 := emit notify_all
               (with_slices (s0 :: q0) (with_bitmap bitmap e))) in *.
  assert (Hsame : same_screen e e1).
  { repeat split. apply (RenderPartial_length _ _ _ Hblit). }
  pose proof (same_screen_geometry _ _ Hsame Hg) as Hg1.
  destruct (expanded_slice_covers e p He Hb) as ((Hx0 & Hx1) & (Hy0 & Hy1) & Hxs & Hys).
  set (s := expanded_slice e p) in *.
  exists (convert_slice e1 s).
  exists (drop (Z.to_nat (screen_stride_ e * slice_y s
                          + slice_x s * bytes_per_pixel e)) bitmap).
  destruct (RenderPartial_content p e bitmap Hg Hb Hwhole Hrows Hblit r
              (u * bytes_per_pixel e + k)) as (c & Hc1 & Hc2); [lia|nia|].
  exists c. split; [|split; [|split]].
  - change (encode_slices_ e1) with (s0 :: q0).
    change [convert_slice e1 s] with (convert_slice e1 <$> [s]).
    rewrite <- fmap_app, Hq.
    destruct (output_callback_ e1); reflexivity.
  - change (slice_width (convert_slice e1 s)) with (slice_width s).
    change (slice_height (convert_slice e1 s)) with (slice_height s).
    apply (convert_slice_source e1 s); try assumption; try lia.
  - change (slice_y (convert_slice e1 s)) with (slice_y s).
    change (slice_x (convert_slice e1 s)) with (slice_x s).
    assert (Hrow : y p <= screen_row p r < y p + height p).
    { unfold screen_row. destruct (flip p); lia. }
    destruct Hg as (Hw & Hh & HB & Hfit & Hss & Hsize & Hlen).
    set (B := bytes_per_pixel e) in *. set (pitch := screen_stride_ e) in *.
    assert (0 <= pitch) by nia.
    assert (0 <= pitch * slice_y s ∧ 0 <= slice_x s * B
            ∧ 0 <= pitch * (screen_row p r - slice_y s)
            ∧ 0 <= (x p + u - slice_x s) * B) as (?&?&?&?) by nia.
    replace (pitch * screen_row p r + x p * B + (u * B + k))
      with (pitch * slice_y s + slice_x s * B
            + (pitch * (screen_row p r - slice_y s)
               + (x p + u - slice_x s) * B + k)) in Hc1 by lia.
    set (off := pitch * slice_y s + slice_x s * B) in *.
    set (i := pitch * (screen_row p r - slice_y s) + (x p + u - slice_x s) * B + k) in *.
    assert (0 <= off ∧ 0 <= i) as [? ?] by (subst off i; lia).
    clearbody off i. unfold byte_at in *.
    destruct (Z.leb_spec 0 i), (Z.leb_spec 0 (off + i)); try lia.
    rewrite lookup_drop, <- Hc1. f_equal. lia.
  - rewrite <- Hc2. f_equal. lia.
Qed.

Lemma rendered_pixels_reach_converter_witness :
  let e := Start 7%nat screen_32x4 in
  let e1 := state_after (Render [flipped_partial] e) e in
  ∃ s src c,
    img (input_yuv_ (EncodeProcess_round one_nal e1))
    = [] ++ (convert_slice e1 <$> encode_slices_ e) ++ [s]
    ∧ yuv s = ARGBToI420 src 128 (slice_width s) (slice_height s)
    ∧ byte_at src (128 * (2 - slice_y s) + (2 + 1 - slice_x s) * 4 + 3) = Some c
    ∧ byte_at (concat (vector flipped_partial)) (0 * 8 + 1 * 4 + 3) = Some c.
Proof.
  apply (rendered_pixels_reach_converter one_nal flipped_partial
           (Start 7%nat screen_32x4)
           (state_after (Render [flipped_partial] (Start 7%nat screen_32x4))
                        (Start 7%nat screen_32x4)))
    with (r := 0) (u := 1) (k := 3);
    [ unfold even_screen; repeat split; vm_compute; congruence
    | unfold screen_geometry; repeat split; vm_compute; congruence
    | left; reflexivity | reflexivity | reflexivity | reflexivity | reflexivity
    | vm_compute; congruence | vm_compute; reflexivity
    | vm_compute; split; congruence | vm_compute; split; congruence
    | vm_compute; split; congruence ].
Defined.

(** ** What Render leaves alone, and what the constructor sets up *)

Lemma Render_partials_members partials : ∀ e e',
  Render_partials partials e = Done e' →
  started_ e' = started_ e ∧ force_keyframe_ e' = force_keyframe_ e
  ∧ destroyed_ e' = destroyed_ e ∧ output_callback_ e' = output_callback_ e
  ∧ input_yuv_ e' = input_yuv_ e
  ∧ output_nal_ e' = output_nal_ e ∧ output_nal_size_ e' = output_nal_size_ e.
Proof.
  induction partials as [|p partials IH]; intros e e' Hr.
  - cbn in Hr. injection Hr as <-. auto 10.
  - cbn [Render_partials] in Hr.
    destruct (RenderPartial p e) as [bitmap| |]; cbn in Hr; try discriminate.
    destruct (started_ e) eqn:Hs; apply IH in Hr; cbn in Hr;
      rewrite ?Hs in Hr; exact Hr.
Qed.

(** X23. [Render] that returns, whatever its partials, leaves the flags,
    the callback, the working picture with its timestamp and frame type, and
    the last codec output as they were: it works on the bitmap, the queue
    and the condition variable only. *)
Theorem Render_leaves_codec_state partials e e' :
  Render partials e = Done e' →
  started_ e' = started_ e ∧ force_keyframe_ e' = force_keyframe_ e
  ∧ destroyed_ e' = destroyed_ e ∧ output_callback_ e' = output_callback_ e
  ∧ input_yuv_ e' = input_yuv_ e
  ∧ output_nal_ e' = output_nal_ e ∧ output_nal_size_ e' = output_nal_size_ e.
Proof.
  intros Hr. unfold Render in Hr.
  destruct (Render_partials partials e) as [e1| |] eqn:Hrun; try discriminate.
  cbn in Hr. injection Hr as <-.
  apply Render_partials_members in Hrun.
  destruct (encode_slices_ e1); exact Hrun.
Qed.

Lemma Render_leaves_codec_state_witness :
  let e := ForceKeyframe (EncodeProcess [one_nal] (Start 7%nat screen_32x4)) in
  let e' := state_after (Render [flipped_partial; white_pixel] e) e in
  started_ e' = true ∧ force_keyframe_ e' = true
  ∧ destroyed_ e' = false ∧ output_callback_ e' = Some 7%nat
  ∧ input_yuv_ e' = input_yuv_ e
  ∧ output_nal_ e' = ["000"; "000"; "001"]%byte ∧ output_nal_size_ e' = 3.
Proof.
  apply (Render_leaves_codec_state [flipped_partial; white_pixel]
           (ForceKeyframe (EncodeProcess [one_nal] (Start 7%nat screen_32x4)))).
  vm_compute. reflexivity.
Defined.

(** X24. The constructor fails only on an odd width or height. When it
    returns, the encoder has the sizes, depth and stride it was given,
    unchecked, and a bitmap of [stride * height] bytes, the product taken in
    [uint]: the length that the assertion of [RenderPartial] takes as the
    end of the bitmap. *)
Theorem SweetDisplayEncoder_new_bitmap width height bpp stride bitmap e :
  SweetDisplayEncoder_new width height bpp stride bitmap = Done e →
  (width mod 2 = 0 ∧ height mod 2 = 0)
  ∧ (screen_width_ e = width ∧ screen_height_ e = height
     ∧ screen_bpp_ e = bpp ∧ screen_stride_ e = stride)
  ∧ len (screen_bitmap_ e) = uint (screen_stride_ e * screen_height_ e).
Proof.
  unfold SweetDisplayEncoder_new, MV_ASSERT.
  destruct (Z.eqb_spec (width mod 2) 0); cbn; [|discriminate].
  destruct (Z.eqb_spec (height mod 2) 0); cbn; [|discriminate].
  intros [= <-]. cbn. repeat split; try assumption.
  unfold len. rewrite length_take, length_app, length_replicate.
  assert (0 <= uint (stride * height)) by (apply Z.mod_pos_bound; lia).
  lia.
Qed.

Lemma SweetDisplayEncoder_new_bitmap_witness :
  (32 mod 2 = 0 ∧ 4 mod 2 = 0)
  ∧ (screen_width_ screen_32x4 = 32 ∧ screen_height_ screen_32x4 = 4
     ∧ screen_bpp_ screen_32x4 = 32 ∧ screen_stride_ screen_32x4 = 128)
  ∧ len (screen_bitmap_ screen_32x4) = uint (128 * 4).
Proof.
  apply (SweetDisplayEncoder_new_bitmap 32 4 32 128 [] screen_32x4). reflexivity.
Defined.
